(** * EchoScript AI: transcription orchestration, a shallow embedding

    The development follows the three source units of the application:
    - [services/geminiService.ts]: [parseJson] and [transcribeAudio];
    - [components/FileUploader.tsx]: [processFile], [handleClear], ...;
    - [App.tsx]: the session controller ([handleAudioReady],
      [handleTranscribe], [handleReset]) and the conditions under which
      its view renders each control.

    JavaScript strings are sequences of UTF-16 code units; a code unit is
    modelled as an [N].  Asynchronous functions are split at their [await]:
    the part that runs at the call and the continuation that runs when the
    awaited promise settles. *)

From Stdlib Require Import List String Ascii NArith ZArith Bool Lia.
Import ListNotations.

Set Implicit Arguments.
Set Warnings "-register-all".

(* ================================================================== *)
(** ** JavaScript strings *)
(* ================================================================== *)

Module JsString.

Definition code_unit := N.
Definition jsstring := list code_unit.

(** [js "abc"] is the JavaScript string literal ['abc']. *)
Definition js (s : string) : jsstring :=
  map N_of_ascii (list_ascii_of_string s).

(** [jq] reads an apostrophe in the literal as a JavaScript double quote
    (code unit 34), so that JSON texts can be written on one line. *)
Definition jq (s : string) : jsstring :=
  map (fun c => if N.eqb c 39 then 34%N else c) (js s).

Definition LF : code_unit := 10%N.

Fixpoint eqb (s t : jsstring) : bool :=
  match s, t with
  | [], [] => true
  | c :: s', d :: t' => N.eqb c d && eqb s' t'
  | _, _ => false
  end.

(** [s.startsWith(p)] *)
Fixpoint startsWith (s p : jsstring) {struct p} : bool :=
  match p with
  | [] => true
  | c :: p' =>
      match s with
      | [] => false
      | d :: s' => N.eqb d c && startsWith s' p'
      end
  end.

(** ECMAScript WhiteSpace and LineTerminator code points, the set that
    [String.prototype.trim] removes. *)
Definition is_trim_space (c : code_unit) : bool :=
  (N.eqb c 9 || N.eqb c 10 || N.eqb c 11 || N.eqb c 12 || N.eqb c 13
   || N.eqb c 32 || N.eqb c 160 || N.eqb c 5760
   || (N.leb 8192 c && N.leb c 8202)
   || N.eqb c 8232 || N.eqb c 8233 || N.eqb c 8239 || N.eqb c 8287
   || N.eqb c 12288 || N.eqb c 65279)%bool.

Fixpoint trimStart (s : jsstring) : jsstring :=
  match s with
  | [] => []
  | c :: s' => if is_trim_space c then trimStart s' else s
  end.

Definition trimEnd (s : jsstring) : jsstring := rev (trimStart (rev s)).

(** [s.trim()] *)
Definition trim (s : jsstring) : jsstring := trimEnd (trimStart s).

(** JavaScript truthiness of a string. *)
Definition nonempty (s : jsstring) : bool :=
  match s with [] => false | _ :: _ => true end.

(** [s.split(',')] *)
Fixpoint split_go (sep : code_unit) (cur : jsstring) (s : jsstring)
  : list jsstring :=
  match s with
  | [] => [rev cur]
  | c :: s' =>
      if N.eqb c sep then rev cur :: split_go sep [] s'
      else split_go sep (c :: cur) s'
  end.

Definition split (sep : code_unit) (s : jsstring) : list jsstring :=
  split_go sep [] s.

End JsString.
Import JsString.

(* ================================================================== *)
(** ** JSON values and [JSON.parse] *)
(* ================================================================== *)

Module Json.

(** [JSON.parse] is a builtin of the platform, not code of the application.
    It is modelled after the JSON grammar (ECMA-404, which ECMAScript's
    [JSON.parse] follows): a scanner that turns the code units into tokens
    and a pushdown automaton that builds the value from the tokens. *)

(** The mathematical value of a JSON number literal:
    [(-1)^neg * mant * 10^scale].  The JavaScript number is its rounding
    to a double, a function of this value. *)
Record decimal : Type := { neg : bool; mant : N; scale : Z }.

Inductive json : Type :=
  | JNull
  | JBool (b : bool)
  | JNumber (d : decimal)
  | JString (s : jsstring)
  | JArray (items : list json)
  | JObject (members : list (jsstring * json)).
  (** [JObject] keeps the members in source order; the resulting
      JavaScript object is a function of that list. *)

(** A decimal that rounds to the double zero: the mantissa is zero, or the
    value is at most [2^-1075], half the least subnormal. *)
Definition rounds_to_zero (d : decimal) : bool :=
  (N.eqb (mant d) 0
   || (Z.ltb (scale d) 0
       && Z.leb (Z.of_N (mant d) * 2 ^ 1075) (10 ^ (- scale d))))%bool.

(** JavaScript truthiness ([!v] is its negation). *)
Definition truthy (v : json) : bool :=
  match v with
  | JNull => false
  | JBool b => b
  | JNumber d => negb (rounds_to_zero d)
  | JString s => nonempty s
  | JArray _ => true
  | JObject _ => true
  end.

(** *** Tokens *)

Inductive token : Type :=
  | TLBrace | TRBrace | TLBrack | TRBrack | TComma | TColon
  | TString (s : jsstring)
  | TNumber (d : decimal)
  | TTrue | TFalse | TNull.

(** *** The scanner: one code unit at a time *)

Inductive num_state : Type :=
  | NMinus      (* after '-': a digit must follow *)
  | NZero       (* after a leading 0 *)
  | NInt        (* inside the integer digits *)
  | NDot        (* after '.': a digit must follow *)
  | NFrac       (* inside the fraction digits *)
  | NExp        (* after e or E: a sign or a digit must follow *)
  | NExpSign    (* after the exponent sign: a digit must follow *)
  | NExpDigits. (* inside the exponent digits *)

Record numacc : Type :=
  { a_neg : bool; a_mant : N; a_frac : N; a_eneg : bool; a_exp : N }.

Definition decimal_of (a : numacc) : decimal :=
  {| neg := a_neg a;
     mant := a_mant a;
     scale := ((if a_eneg a then - Z.of_N (a_exp a) else Z.of_N (a_exp a))
               - Z.of_N (a_frac a))%Z |}.

Inductive mode : Type :=
  | MDefault
  | MString (acc : jsstring)                 (* acc is reversed *)
  | MEscape (acc : jsstring)
  | MUnicode (acc : jsstring) (remaining : nat) (value : N)
  | MNumber (st : num_state) (a : numacc)
  | MLiteral (expect : jsstring) (tok : token).

Definition lstate : Type := (mode * list token)%type. (* tokens reversed *)

Definition is_json_space (c : code_unit) : bool :=
  (N.eqb c 9 || N.eqb c 10 || N.eqb c 13 || N.eqb c 32)%bool.

Definition is_digit (c : code_unit) : bool :=
  (N.leb 48 c && N.leb c 57)%bool.

Definition digit_value (c : code_unit) : N := (c - 48)%N.

Definition hex_value (c : code_unit) : option N :=
  if (N.leb 48 c && N.leb c 57)%bool then Some (c - 48)%N
  else if (N.leb 97 c && N.leb c 102)%bool then Some (c - 87)%N
  else if (N.leb 65 c && N.leb c 70)%bool then Some (c - 55)%N
  else None.

Definition start_acc (negative : bool) (m : N) : numacc :=
  {| a_neg := negative; a_mant := m; a_frac := 0; a_eneg := false;
     a_exp := 0 |}.

(** A code unit met between tokens. *)
Definition step_default (toks : list token) (c : code_unit) : option lstate :=
  if is_json_space c then Some (MDefault, toks)
  else if N.eqb c 123 then Some (MDefault, TLBrace :: toks)
  else if N.eqb c 125 then Some (MDefault, TRBrace :: toks)
  else if N.eqb c 91 then Some (MDefault, TLBrack :: toks)
  else if N.eqb c 93 then Some (MDefault, TRBrack :: toks)
  else if N.eqb c 44 then Some (MDefault, TComma :: toks)
  else if N.eqb c 58 then Some (MDefault, TColon :: toks)
  else if N.eqb c 34 then Some (MString [], toks)
  else if N.eqb c 45 then Some (MNumber NMinus (start_acc true 0), toks)
  else if N.eqb c 48 then Some (MNumber NZero (start_acc false 0), toks)
  else if is_digit c
       then Some (MNumber NInt (start_acc false (digit_value c)), toks)
  else if N.eqb c 116 then Some (MLiteral (js "rue") TTrue, toks)
  else if N.eqb c 102 then Some (MLiteral (js "alse") TFalse, toks)
  else if N.eqb c 110 then Some (MLiteral (js "ull") TNull, toks)
  else None.

Definition push_mant (a : numacc) (c : code_unit) : numacc :=
  {| a_neg := a_neg a; a_mant := a_mant a * 10 + digit_value c;
     a_frac := a_frac a; a_eneg := a_eneg a; a_exp := a_exp a |}.

Definition push_frac (a : numacc) (c : code_unit) : numacc :=
  {| a_neg := a_neg a; a_mant := a_mant a * 10 + digit_value c;
     a_frac := a_frac a + 1; a_eneg := a_eneg a; a_exp := a_exp a |}.

Definition push_exp (a : numacc) (c : code_unit) : numacc :=
  {| a_neg := a_neg a; a_mant := a_mant a; a_frac := a_frac a;
     a_eneg := a_eneg a; a_exp := a_exp a * 10 + digit_value c |}.

Definition set_eneg (a : numacc) : numacc :=
  {| a_neg := a_neg a; a_mant := a_mant a; a_frac := a_frac a;
     a_eneg := true; a_exp := a_exp a |}.

Definition is_e (c : code_unit) : bool := (N.eqb c 101 || N.eqb c 69)%bool.

(** A number literal may end in these states. *)
Definition complete (st : num_state) : bool :=
  match st with
  | NZero | NInt | NFrac | NExpDigits => true
  | NMinus | NDot | NExp | NExpSign => false
  end.

(** The literal ends before [c]: emit it and scan [c] between tokens. *)
Definition end_number (st : num_state) (a : numacc) (toks : list token)
  (c : code_unit) : option lstate :=
  if complete st then step_default (TNumber (decimal_of a) :: toks) c
  else None.

Definition step_number (st : num_state) (a : numacc) (toks : list token)
  (c : code_unit) : option lstate :=
  match st with
  | NMinus =>
      if N.eqb c 48 then Some (MNumber NZero a, toks)
      else if is_digit c then Some (MNumber NInt (push_mant a c), toks)
      else None
  | NZero =>
      if N.eqb c 46 then Some (MNumber NDot a, toks)
      else if is_e c then Some (MNumber NExp a, toks)
      else end_number st a toks c
  | NInt =>
      if is_digit c then Some (MNumber NInt (push_mant a c), toks)
      else if N.eqb c 46 then Some (MNumber NDot a, toks)
      else if is_e c then Some (MNumber NExp a, toks)
      else end_number st a toks c
  | NDot =>
      if is_digit c then Some (MNumber NFrac (push_frac a c), toks)
      else None
  | NFrac =>
      if is_digit c then Some (MNumber NFrac (push_frac a c), toks)
      else if is_e c then Some (MNumber NExp a, toks)
      else end_number st a toks c
  | NExp =>
      if N.eqb c 43 then Some (MNumber NExpSign a, toks)
      else if N.eqb c 45 then Some (MNumber NExpSign (set_eneg a), toks)
      else if is_digit c then Some (MNumber NExpDigits (push_exp a c), toks)
      else None
  | NExpSign =>
      if is_digit c then Some (MNumber NExpDigits (push_exp a c), toks)
      else None
  | NExpDigits =>
      if is_digit c then Some (MNumber NExpDigits (push_exp a c), toks)
      else end_number st a toks c
  end.

Definition step (ls : lstate) (c : code_unit) : option lstate :=
  let (m, toks) := ls in
  match m with
  | MDefault => step_default toks c
  | MString acc =>
      if N.eqb c 34 then Some (MDefault, TString (rev acc) :: toks)
      else if N.eqb c 92 then Some (MEscape acc, toks)
      else if N.ltb c 32 then None
      else Some (MString (c :: acc), toks)
  | MEscape acc =>
      if (N.eqb c 34 || N.eqb c 92 || N.eqb c 47)%bool
      then Some (MString (c :: acc), toks)
      else if N.eqb c 98 then Some (MString (8%N :: acc), toks)
      else if N.eqb c 102 then Some (MString (12%N :: acc), toks)
      else if N.eqb c 110 then Some (MString (10%N :: acc), toks)
      else if N.eqb c 114 then Some (MString (13%N :: acc), toks)
      else if N.eqb c 116 then Some (MString (9%N :: acc), toks)
      else if N.eqb c 117 then Some (MUnicode acc 4 0, toks)
      else None
  | MUnicode acc remaining value =>
      match hex_value c with
      | None => None
      | Some h =>
          let value' := (value * 16 + h)%N in
          match remaining with
          | 0%nat | 1%nat => Some (MString (value' :: acc), toks)
          | S k => Some (MUnicode acc k value', toks)
          end
      end
  | MNumber st a => step_number st a toks c
  | MLiteral expect tok =>
      match expect with
      | [] => None
      | e :: rest =>
          if N.eqb c e then
            match rest with
            | [] => Some (MDefault, tok :: toks)
            | _ :: _ => Some (MLiteral rest tok, toks)
            end
          else None
      end
  end.

Fixpoint scan (ls : lstate) (s : jsstring) : option lstate :=
  match s with
  | [] => Some ls
  | c :: s' =>
      match step ls c with
      | None => None
      | Some ls' => scan ls' s'
      end
  end.

(** End of input: a string, an escape or a literal left open is an error; a
    number literal ends here if it may. *)
Definition finish (ls : lstate) : option (list token) :=
  let (m, toks) := ls in
  match m with
  | MDefault => Some (rev toks)
  | MNumber st a =>
      if complete st then Some (rev (TNumber (decimal_of a) :: toks))
      else None
  | _ => None
  end.

Definition lex (s : jsstring) : option (list token) :=
  match scan (MDefault, []) s with
  | None => None
  | Some ls => finish ls
  end.

(** *** The parser: a pushdown automaton over the tokens *)

Inductive frame : Type :=
  | FArr (items_rev : list json)
  | FObj (members_rev : list (jsstring * json)) (key : jsstring).

Inductive pstate : Type :=
  | PValue (stk : list frame)           (* a value must follow *)
  | PArrFirst (stk : list frame)        (* after '[' *)
  | PArrNext (items_rev : list json) (stk : list frame)
  | PObjFirst (stk : list frame)        (* after '{' *)
  | PObjKey (members_rev : list (jsstring * json)) (stk : list frame)
  | PObjColon (members_rev : list (jsstring * json)) (key : jsstring)
      (stk : list frame)
  | PObjNext (members_rev : list (jsstring * json)) (stk : list frame)
  | PDone (v : json).

(** A value is complete: hand it to the enclosing container. *)
Definition deliver (v : json) (stk : list frame) : pstate :=
  match stk with
  | [] => PDone v
  | FArr items :: stk' => PArrNext (v :: items) stk'
  | FObj members key :: stk' => PObjNext ((key, v) :: members) stk'
  end.

Definition value_start (t : token) (stk : list frame) : option pstate :=
  match t with
  | TLBrack => Some (PArrFirst stk)
  | TLBrace => Some (PObjFirst stk)
  | TString s => Some (deliver (JString s) stk)
  | TNumber d => Some (deliver (JNumber d) stk)
  | TTrue => Some (deliver (JBool true) stk)
  | TFalse => Some (deliver (JBool false) stk)
  | TNull => Some (deliver JNull stk)
  | TRBrace | TRBrack | TComma | TColon => None
  end.

Definition pstep (p : pstate) (t : token) : option pstate :=
  match p with
  | PValue stk => value_start t stk
  | PArrFirst stk =>
      match t with
      | TRBrack => Some (deliver (JArray []) stk)
      | _ => value_start t (FArr [] :: stk)
      end
  | PArrNext items stk =>
      match t with
      | TComma => Some (PValue (FArr items :: stk))
      | TRBrack => Some (deliver (JArray (rev items)) stk)
      | _ => None
      end
  | PObjFirst stk =>
      match t with
      | TRBrace => Some (deliver (JObject []) stk)
      | TString k => Some (PObjColon [] k stk)
      | _ => None
      end
  | PObjKey members stk =>
      match t with
      | TString k => Some (PObjColon members k stk)
      | _ => None
      end
  | PObjColon members k stk =>
      match t with
      | TColon => Some (PValue (FObj members k :: stk))
      | _ => None
      end
  | PObjNext members stk =>
      match t with
      | TComma => Some (PObjKey members stk)
      | TRBrace => Some (deliver (JObject (rev members)) stk)
      | _ => None
      end
  | PDone _ => None
  end.

Fixpoint prun (p : pstate) (ts : list token) : option pstate :=
  match ts with
  | [] => Some p
  | t :: ts' =>
      match pstep p t with
      | None => None
      | Some p' => prun p' ts'
      end
  end.

Definition parse_tokens (ts : list token) : option json :=
  match prun (PValue []) ts with
  | Some (PDone v) => Some v
  | _ => None
  end.

(** [parse_text s] is the value of the JSON text [s], [None] when [s] is
    not a JSON text (where [JSON.parse] throws a SyntaxError). *)
Definition parse_text (s : jsstring) : option json :=
  match lex s with
  | None => None
  | Some ts => parse_tokens ts
  end.

End Json.
Import Json.

(* ================================================================== *)
(** ** Completions and effects *)
(* ================================================================== *)

Module Effects.

(** Values that the code throws or that a promise rejects with. *)
Inductive exn : Type :=
  | SyntaxError                        (* thrown by [JSON.parse] *)
  | TypeError                          (* a call or property read on undefined *)
  | Error (message : jsstring)         (* [new Error(message)] *)
  | ServiceFailure (detail : jsstring). (* rejection of the SDK call *)

Inductive completion (A : Type) : Type :=
  | Return (a : A)
  | Throw (e : exn).
Arguments Return {A} a.
Arguments Throw {A} e.

(** [JSON.parse(s)] *)
Definition JSON_parse (s : jsstring) : completion json :=
  match parse_text s with
  | Some v => Return v
  | None => Throw SyntaxError
  end.

Section WithEvents.

(** The observable events of a computation, in order. *)
Variable event : Type.

Definition Eff (A : Type) : Type := (completion A * list event)%type.

Definition ret {A} (a : A) : Eff A := (Return a, []).
Definition throw {A} (e : exn) : Eff A := (Throw e, []).
Definition emit (ev : event) : Eff unit := (Return tt, [ev]).
Definition lift {A} (c : completion A) : Eff A := (c, []).

Definition bind {A B} (m : Eff A) (k : A -> Eff B) : Eff B :=
  match m with
  | (Return a, evs) => let (r, evs') := k a in (r, evs ++ evs')
  | (Throw e, evs) => (Throw e, evs)
  end.

(** [try { m } catch (e) { handler e }] *)
Definition try_catch {A} (m : Eff A) (handler : exn -> Eff A) : Eff A :=
  match m with
  | (Return a, evs) => (Return a, evs)
  | (Throw e, evs) => let (r, evs') := handler e in (r, evs ++ evs')
  end.

End WithEvents.

Arguments ret {event A} a.
Arguments throw {event A} e.
Arguments emit {event} ev.
Arguments lift {event A} c.

End Effects.
Import Effects.

Declare Scope eff_scope.
Delimit Scope eff_scope with eff.
Notation "x <- m ;; k" := (bind m (fun x => k))
  (at level 61, m at next level, right associativity) : eff_scope.
Notation "m ;; k" := (bind m (fun _ => k))
  (at level 61, right associativity) : eff_scope.

(* ================================================================== *)
(** ** types.ts *)
(* ================================================================== *)

Module Types.

(** Modelled from the spec: the [Emotion] enum of [types.ts], which is not
    among the sources.  The spec gives the closed set Happy, Sad, Angry,
    Neutral; the members are the ones [getEmotionBadge] switches on, and
    each is rendered as its own name. *)
Inductive Emotion : Type := Happy | Sad | Angry | Neutral.

Definition Emotion_value (e : Emotion) : jsstring :=
  match e with
  | Happy => js "Happy"
  | Sad => js "Sad"
  | Angry => js "Angry"
  | Neutral => js "Neutral"
  end.

(** [Object.values(Emotion)]: the values in declaration order. *)
Definition Object_values_Emotion : list jsstring :=
  map Emotion_value [Happy; Sad; Angry; Neutral].

(** [AppStatus]: the four literals that [App.tsx] assigns and tests,
    ['idle'], ['processing'], ['success'] and ['error']. *)
Inductive AppStatus : Type :=
  st_idle | st_processing | st_success | st_error.

(** A [File] as the uploader reads it: name, declared MIME type, content. *)
Record File : Type :=
  { name : jsstring; type : jsstring; content : list N }.

(** [AudioData], as [FileUploader] builds it.  [base64] is [None] for the
    JavaScript [undefined] that indexing past the end of an array gives. *)
Record AudioData : Type :=
  { blob : File; base64 : option jsstring; mimeType : jsstring }.

End Types.

(* ================================================================== *)
(** ** services/geminiService.ts *)
(* ================================================================== *)

Module Service.

Import Types.

(** *** The request *)

(** [Type] of the SDK. *)
Inductive SchemaType : Type := OBJECT | ARRAY | STRING.

Inductive Schema : Type :=
  MkSchema (type : SchemaType)
           (description : option jsstring)
           (enum : option (list jsstring))
           (properties : option (list (jsstring * Schema)))
           (items : option Schema)
           (required : option (list jsstring)).

Definition properties (s : Schema) : option (list (jsstring * Schema)) :=
  match s with MkSchema _ _ _ p _ _ => p end.
Definition items (s : Schema) : option Schema :=
  match s with MkSchema _ _ _ _ i _ => i end.
Definition required (s : Schema) : option (list jsstring) :=
  match s with MkSchema _ _ _ _ _ r => r end.
Definition enum (s : Schema) : option (list jsstring) :=
  match s with MkSchema _ _ e _ _ _ => e end.
Definition type (s : Schema) : SchemaType :=
  match s with MkSchema t _ _ _ _ _ => t end.

(** [{ type: Type.STRING }] *)
Definition string_schema : Schema :=
  MkSchema STRING None None None None None.

(** [properties.k] of an object schema. *)
Fixpoint assoc (k : jsstring) (l : list (jsstring * Schema)) : option Schema :=
  match l with
  | [] => None
  | (k', v) :: l' => if JsString.eqb k k' then Some v else assoc k l'
  end.

Definition property (k : jsstring) (s : Schema) : option Schema :=
  match properties s with
  | Some l => assoc k l
  | None => None
  end.

Definition segment_schema : Schema :=
  MkSchema OBJECT None None
    (Some [ (js "speaker", string_schema);
            (js "timestamp", string_schema);
            (js "content", string_schema);
            (js "language", string_schema);
            (js "language_code", string_schema);
            (js "translation", string_schema);
            (js "emotion",
             MkSchema STRING (Some (js "The emotion of the speaker."))
               (Some Object_values_Emotion) None None None) ])
    None
    (Some [ js "speaker"; js "timestamp"; js "content"; js "language";
            js "language_code"; js "emotion" ]).

Definition responseSchema : Schema :=
  MkSchema OBJECT None None
    (Some [ (js "summary",
             MkSchema STRING
               (Some (js "A concise summary of the audio content."))
               None None None None);
            (js "segments",
             MkSchema ARRAY
               (Some (js "List of transcribed segments with speaker and timestamp."))
               None None (Some segment_schema) None) ])
    None
    (Some [ js "summary"; js "segments" ]).

Inductive Part : Type :=
  | part_inlineData (mimeType : jsstring) (data : option jsstring)
  | part_text (text : jsstring).

Record Config : Type :=
  { responseMimeType : jsstring; config_responseSchema : Schema }.

Record GenerateContentParameters : Type :=
  { model : jsstring; contents : list Part; config : Config }.

(** Using gemini-3-flash-preview for fast multimodal processing *)
Definition modelId : jsstring := js "gemini-3-flash-preview".

Definition lines (l : list jsstring) : jsstring :=
  List.concat (map (fun s => s ++ [LF]) l).

Definition prompt : jsstring :=
  LF :: lines
  [ js "    You are an expert audio transcription assistant.";
    js "    Process the provided audio file and generate a detailed transcription.";
    js "    ";
    js "    Requirements:";
    js "    1. Identify distinct speakers (e.g., Speaker 1, Speaker 2, or names if context allows).";
    js "    2. Provide accurate timestamps for each segment (Format: MM:SS).";
    js "    3. Detect the primary language of each segment.";
    js "    4. If the segment is in a language different than English, also provide the English translation.";
    js "    5. Identify the primary emotion of the speaker in this segment. You MUST choose exactly one of the following: Happy, Sad, Angry, Neutral.";
    js "    6. Provide a brief summary of the entire audio at the beginning.";
    js "    ";
    js "    Output Format: JSON object with the following structure:";
    js "    {";
    jq "      'summary': 'A brief summary of the conversation...',";
    jq "      'segments': [";
    js "        {";
    jq "          'speaker': 'Speaker 1',";
    jq "          'timestamp': '00:00 - 00:15',";
    jq "          'content': 'Hello, how are you doing today?',";
    jq "          'language': 'English',";
    jq "          'language_code': 'en',";
    jq "          'translation': '',";
    jq "          'emotion': 'Happy'";
    js "        },";
    js "        ...";
    js "      ]";
    js "    }" ] ++ js "  ".

(** The argument of [ai.models.generateContent]. *)
Definition request (base64Audio : option jsstring) (mimeType : jsstring)
  : GenerateContentParameters :=
  {| model := modelId;
     contents := [ part_inlineData mimeType base64Audio; part_text prompt ];
     config := {| responseMimeType := js "application/json";
                  config_responseSchema := responseSchema |} |}.

(** The response of the SDK: [response.text] is a string or undefined. *)
Record GenerateContentResponse : Type :=
  { response_text : option jsstring }.

(** *** Events *)

Inductive event : Type :=
  | console_error (label : jsstring) (e : exn)
  | generateContent (apiKey : jsstring) (params : GenerateContentParameters).

(** [process.env]: [API_KEY] is a string or undefined. *)
Record ProcessEnv : Type := { API_KEY : option jsstring }.

(** What the promise of [ai.models.generateContent] settles with: a
    response, or a rejection raised inside the SDK (network or service
    failure). *)
Inductive settled : Type :=
  | resolved (response : GenerateContentResponse)
  | rejected (detail : jsstring).

(** [await] of that promise. *)
Definition await (o : settled) : completion GenerateContentResponse :=
  match o with
  | resolved response => Return response
  | rejected detail => Throw (ServiceFailure detail)
  end.

(** The external service: what a call with this key and these parameters
    settles with. *)
Definition service : Type :=
  jsstring -> GenerateContentParameters -> settled.

(** *** parseJson *)

Definition fence_open : jsstring := js "```json" ++ [LF].
Definition fence_close : jsstring := LF :: js "```".

(** [text.replace(/```json\n|\n```/g, "")]: scan from the left; where the
    first alternative matches, drop its 8 code units, else where the second
    matches drop its 4, else keep the code unit.  [skip] counts the code
    units of the current match still to drop. *)
Fixpoint replace_go (skip : nat) (s : jsstring) : jsstring :=
  match s with
  | [] => []
  | c :: s' =>
      match skip with
      | S k => replace_go k s'
      | O =>
          if startsWith s fence_open
          then replace_go (List.length fence_open - 1) s'
          else if startsWith s fence_close
          then replace_go (List.length fence_close - 1) s'
          else c :: replace_go 0 s'
      end
  end.

Definition replace_fences (text : jsstring) : jsstring := replace_go 0 text.

Local Open Scope eff_scope.

Definition parseJson (text : jsstring) : Eff event json :=
  try_catch
    (let cleanText := trim (replace_fences text) in
     lift (JSON_parse cleanText))
    (fun e =>
       emit (console_error (js "Failed to parse JSON response:") e) ;;
       ret (JArray [])).

(** *** transcribeAudio *)

(** JavaScript truthiness of a string or undefined. *)
Definition truthy_string (s : option jsstring) : option jsstring :=
  match s with
  | Some (c :: r) => Some (c :: r)
  | _ => None
  end.

Definition missing_key_message : jsstring :=
  js "API Key is missing. Please ensure process.env.API_KEY is available.".

Definition no_text_message : jsstring :=
  js "No response text received from Gemini.".

Definition transcribeAudio (env : ProcessEnv) (svc : service)
  (base64Audio : option jsstring) (mimeType : jsstring) : Eff event json :=
  match truthy_string (API_KEY env) with
  | None => throw (Error missing_key_message)
  | Some apiKey =>
      try_catch
        (let params := request base64Audio mimeType in
         emit (generateContent apiKey params) ;;
         response <- lift (await (svc apiKey params)) ;;
         match truthy_string (response_text response) with
         | None => throw (Error no_text_message)
         | Some text =>
             data <- parseJson text ;;
             ret data
         end)
        (fun error =>
           emit (console_error (js "Gemini Transcription Error:") error) ;;
           throw error)
  end.

(** The same function cut at its [await], for runs in which other handlers
    execute while the call is outstanding.  [transcribeAudio_begin] is what
    runs at the call; [transcribeAudio_resume] is what runs when the promise
    of the SDK settles. *)
Definition transcribeAudio_begin (env : ProcessEnv)
  (base64Audio : option jsstring) (mimeType : jsstring)
  : Eff event (jsstring * GenerateContentParameters) :=
  match truthy_string (API_KEY env) with
  | None => throw (Error missing_key_message)
  | Some apiKey =>
      let params := request base64Audio mimeType in
      emit (generateContent apiKey params) ;;
      ret (apiKey, params)
  end.

Definition transcribeAudio_resume (o : settled) : Eff event json :=
  try_catch
    (response <- lift (await o) ;;
     match truthy_string (response_text response) with
     | None => throw (Error no_text_message)
     | Some text =>
         data <- parseJson text ;;
         ret data
     end)
    (fun error =>
       emit (console_error (js "Gemini Transcription Error:") error) ;;
       throw error).

End Service.

(* ================================================================== *)
(** ** components/FileUploader.tsx *)
(* ================================================================== *)

Module FileUploader.

Import Types.

(** The component's state: the two [useState] cells and the value of the
    file input that [inputRef] points to. *)
Record State : Type :=
  { dragActive : bool; fileName : option jsstring; input_value : jsstring }.

(** What a handler does besides updating the state. *)
Inductive effect : Type :=
  | alert (message : jsstring)
  | readAsDataURL (file : File)          (* a read starts; [onloadend] is set *)
  | onFileSelected (audioData : AudioData).  (* the callback prop is called *)

Definition processFile (file : File) (st : State) : State * list effect :=
  if (negb (startsWith (type file) (js "audio/"))
      && negb (startsWith (type file) (js "video/")))%bool
  then (st, [alert (js "Please upload a valid audio file.")])
  else
    ({| dragActive := dragActive st;
        fileName := Some (name file);
        input_value := input_value st |},
     [readAsDataURL file]).

(** [reader.onloadend], for the read that [processFile file] started;
    [result] is [reader.result], a data URL. *)
Definition reader_onloadend (file : File) (result : jsstring) : list effect :=
  let base64String := result in
  let base64 := nth_error (split 44%N base64String) 1 in
  [onFileSelected {| blob := file; base64 := base64; mimeType := type file |}].

(** [kind] is [e.type]. *)
Definition handleDrag (kind : jsstring) (st : State) : State :=
  if (JsString.eqb kind (js "dragenter") || JsString.eqb kind (js "dragover"))%bool
  then {| dragActive := true; fileName := fileName st;
          input_value := input_value st |}
  else if JsString.eqb kind (js "dragleave")
  then {| dragActive := false; fileName := fileName st;
          input_value := input_value st |}
  else st.

(** [files] is [e.dataTransfer.files]. *)
Definition handleDrop (files : list File) (st : State)
  : State * list effect :=
  let st' := {| dragActive := false;
                fileName := fileName st;
                input_value := input_value st |} in
  match files with
  | file :: _ => processFile file st'
  | [] => (st', [])
  end.

(** [files] is [e.target.files]. *)
Definition handleChange (files : list File) (st : State)
  : State * list effect :=
  match files with
  | file :: _ => processFile file st
  | [] => (st, [])
  end.

Definition handleClear (st : State) : State * list effect :=
  ({| dragActive := dragActive st;
      fileName := None;
      input_value := [] |},
   []).

End FileUploader.

(* ================================================================== *)
(** ** components/TranscriptionDisplay.tsx *)
(* ================================================================== *)

Module TranscriptionDisplay.

(** [data.k]: the own property [k] of the object parsed from [members];
    of two members with one name the later one stays. *)
Fixpoint get (k : jsstring) (members : list (jsstring * json))
  : option json :=
  match members with
  | [] => None
  | (k', v) :: rest =>
      match get k rest with
      | Some v' => Some v'
      | None => if JsString.eqb k k' then Some v else None
      end
  end.

(** The receiver of [data.segments.map(...)]: the items when
    [data.segments] is an array.  On any other [data] the property is
    undefined or has no [map], and the call throws. *)
Definition segments (data : json) : completion (list json) :=
  match data with
  | JObject members =>
      match get (js "segments") members with
      | Some (JArray items) => Return items
      | _ => Throw TypeError
      end
  | _ => Throw TypeError
  end.

End TranscriptionDisplay.

(* ================================================================== *)
(** ** App.tsx *)
(* ================================================================== *)

Module App.

Import Types.

Inductive Mode : Type := record | upload.

(** The [useState] cells of [App] ([isDarkMode] apart).  [result] holds the
    value that [transcribeAudio] resolved with, [JNull] for [null]. *)
Record State : Type :=
  { mode : Mode;
    status : AppStatus;
    audioData : option AudioData;
    result : json;
    error : option jsstring }.

Definition initial : State :=
  {| mode := record; status := st_idle; audioData := None; result := JNull;
     error := None |}.

Inductive event : Type :=
  | service_event (e : Service.event)
  | console_error (err : exn).

(** *** Handlers *)

(** The message [handleTranscribe] shows for every failure. *)
Definition generic_message : jsstring :=
  js "An error occurred during transcription. Please try again.".

Definition handleAudioReady (data : AudioData) (s : State) : State :=
  {| mode := mode s;
     status := status s;
     audioData := Some data;
     error := None;
     result := JNull |}. (* Clear previous results *)

(** [handleTranscribe] up to its [await]: the guard and the two setters;
    the second component is the payload [transcribeAudio] is called on. *)
Definition handleTranscribe_begin (s : State) : State * option AudioData :=
  match audioData s with
  | None => (s, None)
  | Some a =>
      ({| mode := mode s;
          status := st_processing;
          audioData := audioData s;
          result := result s;
          error := None |},
       Some a)
  end.

(** [handleTranscribe] after its [await]: [outcome] is what the promise of
    [transcribeAudio] settled with, [s] the state at that moment. *)
Definition handleTranscribe_resume (outcome : completion json) (s : State)
  : State * list event :=
  match outcome with
  | Return data =>
      ({| mode := mode s;
          status := st_success;
          audioData := audioData s;
          result := data;
          error := error s |},
       [])
  | Throw err =>
      ({| mode := mode s;
          status := st_error;
          audioData := audioData s;
          result := result s;
          error := Some generic_message |},
       [console_error err])
  end.

(** [handleTranscribe] run to its end with no other handler in between. *)
Definition handleTranscribe (env : Service.ProcessEnv) (svc : Service.service)
  (s : State) : State * list event :=
  match handleTranscribe_begin s with
  | (s1, None) => (s1, [])
  | (s1, Some a) =>
      let (outcome, evs) :=
        Service.transcribeAudio env svc (base64 a) (mimeType a) in
      let (s2, evs') := handleTranscribe_resume outcome s1 in
      (s2, map service_event evs ++ evs')
  end.

Definition handleReset (s : State) : State :=
  {| mode := mode s;
     audioData := None;
     result := JNull;
     status := st_idle;
     error := None |}.

Definition setMode (m : Mode) (s : State) : State :=
  {| mode := m; status := status s; audioData := audioData s;
     result := result s; error := error s |}.

(** *** The view: which controls the JSX renders *)

Definition is_status (x : AppStatus) (s : State) : bool :=
  match x, status s with
  | st_idle, st_idle | st_processing, st_processing
  | st_success, st_success | st_error, st_error => true
  | _, _ => false
  end.

Definition some {A} (o : option A) : bool :=
  match o with Some _ => true | None => false end.

Definition truthy_error (e : option jsstring) : bool :=
  match e with Some m => nonempty m | None => false end.

Record View : Type :=
  { error_banner : bool;        (* status === 'error' && error *)
    mode_tabs : bool;           (* !result *)
    mode_tabs_disabled : bool;  (* disabled={status === 'processing'} *)
    input_section : bool;       (* !result && status !== 'processing' *)
    generate_button : bool;     (* ... && audioData *)
    processing_panel : bool;    (* status === 'processing' *)
    results_section : bool }.   (* result && status === 'success' *)

Definition render (s : State) : View :=
  {| error_banner := is_status st_error s && truthy_error (error s);
     mode_tabs := negb (truthy (result s));
     mode_tabs_disabled := is_status st_processing s;
     input_section :=
       negb (truthy (result s)) && negb (is_status st_processing s);
     generate_button :=
       negb (truthy (result s)) && negb (is_status st_processing s)
       && some (audioData s);
     processing_panel := is_status st_processing s;
     results_section := truthy (result s) && is_status st_success s |}.

End App.

(* ================================================================== *)
(** ** The running application *)
(* ================================================================== *)

(** [App] together with the calls of [transcribeAudio] it is awaiting.
    User input reaches a handler only through a control that the current
    view renders and enables. *)
Module Session.

Import Types App.

(** A call of [transcribeAudio] whose promise has not settled yet. *)
Inductive pending_call : Type :=
  | failed_at_call (e : exn)   (* thrown before the SDK was called *)
  | awaiting_service (apiKey : jsstring)
      (params : Service.GenerateContentParameters).

Record Sys : Type :=
  { app : State; pending : list pending_call; log : list event }.

Definition initial_sys : Sys :=
  {| app := initial; pending := []; log := [] |}.

Definition with_app (sys : Sys) (s : State) : Sys :=
  {| app := s; pending := pending sys; log := log sys |}.

(** [handleTranscribe()] is invoked: it runs up to its [await]. *)
Definition call_handleTranscribe (env : Service.ProcessEnv) (sys : Sys)
  : Sys :=
  match handleTranscribe_begin (app sys) with
  | (s1, None) => with_app sys s1
  | (s1, Some a) =>
      let (c, evs) :=
        Service.transcribeAudio_begin env (base64 a) (mimeType a) in
      {| app := s1;
         pending :=
           pending sys ++
           [match c with
            | Throw e => failed_at_call e
            | Return (apiKey, params) => awaiting_service apiKey params
            end];
         log := log sys ++ map service_event evs |}
  end.

(** The oldest awaited call settles, the SDK's promise with [o], and
    [handleTranscribe] resumes. *)
Definition settle (o : Service.settled) (sys : Sys) : Sys :=
  match pending sys with
  | [] => sys
  | p :: rest =>
      let (outcome, evs) :=
        match p with
        | failed_at_call e => (Throw e, [])
        | awaiting_service _ _ => Service.transcribeAudio_resume o
        end in
      let (s', evs') := handleTranscribe_resume outcome (app sys) in
      {| app := s';
         pending := rest;
         log := log sys ++ map service_event evs ++ evs' |}
  end.

Inductive ui_event : Type :=
  | click_tab (m : Mode)     (* Record Audio / Upload File *)
  | click_generate           (* Generate Transcript *)
  | click_start_over         (* Start Over *)
  | captured (data : AudioData)
      (* a capture component calls [onAudioCaptured] / [onFileSelected];
         [reader.onloadend] does so when its read completes, whether or not
         the uploader is still rendered *)
  | settles (o : Service.settled).

Definition ui_step (env : Service.ProcessEnv) (sys : Sys) (ev : ui_event)
  : Sys :=
  let v := render (app sys) in
  match ev with
  | click_tab m =>
      if mode_tabs v && negb (mode_tabs_disabled v)
      then with_app sys (handleReset (setMode m (app sys)))
      else sys
  | click_generate =>
      if generate_button v then call_handleTranscribe env sys else sys
  | click_start_over =>
      if results_section v then with_app sys (handleReset (app sys))
      else sys
  | captured data => with_app sys (handleAudioReady data (app sys))
  | settles o => settle o sys
  end.

Definition ui_run (env : Service.ProcessEnv) (sys : Sys)
  (evs : list ui_event) : Sys :=
  fold_left (ui_step env) evs sys.

(** The transcription requests in flight at the external service. *)
Definition in_flight (sys : Sys) : nat :=
  List.length
    (filter (fun p => match p with
                      | awaiting_service _ _ => true
                      | failed_at_call _ => false
                      end) (pending sys)).

(** *** The session states of the specification *)

(** The tagged union of the specification.  The payload is optional outside
    [ready] because the controller can hold none there. *)
Inductive SessionState : Type :=
  | s_idle
  | s_ready (payload : AudioData)
  | s_processing (payload : option AudioData)
  | s_success (payload : option AudioData) (response : json)
  | s_error (payload : option AudioData) (message : jsstring).

(** The session state that a controller state presents, read off the view:
    the spinner, the results, the error banner, else the capture form with
    or without the Generate Transcript button. *)
Definition session_state (s : State) : SessionState :=
  if is_status st_processing s then s_processing (audioData s)
  else if truthy (result s) && is_status st_success s
       then s_success (audioData s) (result s)
  else if is_status st_error s && truthy_error (error s)
       then s_error (audioData s)
              match error s with Some m => m | None => [] end
  else match audioData s with
       | Some a => s_ready a
       | None => s_idle
       end.

(** *** The page: [App] with a rendered [FileUploader] *)

Definition route (s : State) (e : FileUploader.effect) : State :=
  match e with
  | FileUploader.onFileSelected a => handleAudioReady a s
  | FileUploader.alert _ => s
  | FileUploader.readAsDataURL _ => s
  end.

(** The Remove file button of the uploader is clicked. *)
Definition click_remove (page : State * FileUploader.State)
  : State * FileUploader.State :=
  let (s, up) := page in
  let (up', effects) := FileUploader.handleClear up in
  (fold_left route effects s, up').

End Session.

(* ================================================================== *)
(** ** Definitions used by the statements and proofs below *)
(* ================================================================== *)

(** *** Scanner invariants *)

Module ScanInv.

Definition lower (c : code_unit) : bool := (N.leb 97 c && N.leb c 122)%bool.

(** The code units a literal still expects are lower-case letters. *)
Definition wf_mode (m : mode) : bool :=
  match m with
  | MLiteral expect _ => forallb lower expect
  | _ => true
  end.

Definition wf (ls : lstate) : bool := wf_mode (fst ls).

(** Scanning [s] from [ls] and ending the input there. *)
Definition lexes (ls : lstate) (s : jsstring) : option (list token) :=
  match scan ls s with Some ls' => finish ls' | None => None end.

(** What may follow a JSON text in the raw response: nothing, or the
    closing fence. *)
Definition tail_ok (t : jsstring) : Prop := t = [] \/ t = Service.fence_close.

End ScanInv.

(** *** Sample data *)

Module Sample.

Import Types.

(** The raw text of the specification's end-to-end example. *)
Definition example_text : jsstring :=
  jq "{'summary':'Two speakers discuss weather.','segments':[{'speaker':'Speaker 1','timestamp':'00:00 - 00:05','content':'Nice day.','language':'English','language_code':'en','emotion':'Happy'}]}".

Definition example_response : json :=
  JObject
    [ (js "summary", JString (js "Two speakers discuss weather."));
      (js "segments",
       JArray
         [ JObject
             [ (js "speaker", JString (js "Speaker 1"));
               (js "timestamp", JString (js "00:00 - 00:05"));
               (js "content", JString (js "Nice day."));
               (js "language", JString (js "English"));
               (js "language_code", JString (js "en"));
               (js "emotion", JString (js "Happy")) ] ]) ].

(** [{ summary: '', segments: [] }] *)
Definition empty_response : json :=
  JObject [ (js "summary", JString []); (js "segments", JArray []) ].

Definition wav : File :=
  {| name := js "a.wav"; type := js "audio/wav"; content := [82; 73]%N |}.

Definition ogg : File :=
  {| name := js "b.ogg"; type := js "audio/ogg"; content := [79; 103]%N |}.

Definition pdf : File :=
  {| name := js "notes.pdf"; type := js "application/pdf";
     content := [37; 80]%N |}.

Definition clipA : AudioData :=
  {| blob := wav; base64 := Some (js "Ukk="); mimeType := js "audio/wav" |}.

Definition clipB : AudioData :=
  {| blob := ogg; base64 := Some (js "T2c="); mimeType := js "audio/ogg" |}.

Definition with_key : Service.ProcessEnv :=
  {| Service.API_KEY := Some (js "k") |}.

Definition no_key : Service.ProcessEnv := {| Service.API_KEY := None |}.

Definition answers_example : Service.service :=
  fun _ _ =>
    Service.resolved {| Service.response_text := Some example_text |}.

Definition unreachable_service : Service.service :=
  fun _ _ => Service.rejected (js "fetch failed").

End Sample.

(** *** Statements about the session *)

Module SessionProps.

Import Types App Session.

(** While a call is awaited the status is ['processing'] and the call is
    the only one; otherwise none is awaited. *)
Definition one_call (sys : Sys) : Prop :=
  if is_status st_processing (app sys)
  then List.length (pending sys) = 1%nat
  else pending sys = [].

(** A transport failure: the SDK's promise rejects, or it resolves without
    text. *)
Definition transport_failure (o : Service.settled) : Prop :=
  match o with
  | Service.rejected _ => True
  | Service.resolved r =>
      Service.truthy_string (Service.response_text r) = None
  end.

End SessionProps.

(* ================================================================== *)
(** ** Further definitions for the properties of the whole code *)
(* ================================================================== *)

Module Padding.

(** Every code unit of [w] is one that [trim] removes. *)
Definition all_space (w : jsstring) : bool := forallb is_trim_space w.

(** What follows a JSON text is nothing, or begins with such a code unit
    (the closing fence begins with a line feed). *)
Definition space_led (t : jsstring) : Prop :=
  match t with
  | [] => True
  | c :: _ => is_trim_space c = true
  end.

(** The last code unit of [w] is a line feed. *)
Definition ends_with_LF (w : jsstring) : bool :=
  match rev w with
  | c :: _ => N.eqb c LF
  | [] => false
  end.

Definition no_backtick (s : jsstring) : bool :=
  forallb (fun c => negb (N.eqb c 96)) s.

Definition no_comma (s : jsstring) : bool :=
  forallb (fun c => negb (N.eqb c 44)) s.

End Padding.

Module Outcome.

Import Types.

Definition is_request (ev : Service.event) : bool :=
  match ev with
  | Service.generateContent _ _ => true
  | Service.console_error _ _ => false
  end.

(** The number of calls of the SDK among the events. *)
Definition requests (evs : list Service.event) : nat :=
  List.length (filter is_request evs).

(** The text the service answers a call of [transcribeAudio] with, when
    there is a credential, the SDK's promise resolves and the response has
    a non-empty text. *)
Definition answered (env : Service.ProcessEnv) (svc : Service.service)
  (base64Audio : option jsstring) (mimeType : jsstring) : option jsstring :=
  match Service.truthy_string (Service.API_KEY env) with
  | None => None
  | Some apiKey =>
      match svc apiKey (Service.request base64Audio mimeType) with
      | Service.resolved r => Service.truthy_string (Service.response_text r)
      | Service.rejected _ => None
      end
  end.

End Outcome.

(** *** The uploader over time *)

Module UploaderRun.

Import Types.

(** [file.type.startsWith('audio/') || file.type.startsWith('video/')] *)
Definition accepted (t : jsstring) : bool :=
  (startsWith t (js "audio/") || startsWith t (js "video/"))%bool.

(** The uploader with the reads it has started and not yet seen end, the
    payloads it has handed to [onFileSelected], and its alerts. *)
Record Up : Type :=
  { state : FileUploader.State;
    reading : list File;
    emitted : list AudioData;
    alerts : list jsstring }.

Definition initial_up : Up :=
  {| state := {| FileUploader.dragActive := false;
                 FileUploader.fileName := None;
                 FileUploader.input_value := [] |};
     reading := []; emitted := []; alerts := [] |}.

Definition perform (u : Up) (e : FileUploader.effect) : Up :=
  match e with
  | FileUploader.alert m =>
      {| state := state u; reading := reading u; emitted := emitted u;
         alerts := alerts u ++ [m] |}
  | FileUploader.readAsDataURL f =>
      {| state := state u; reading := reading u ++ [f];
         emitted := emitted u; alerts := alerts u |}
  | FileUploader.onFileSelected a =>
      {| state := state u; reading := reading u;
         emitted := emitted u ++ [a]; alerts := alerts u |}
  end.

Definition handled (u : Up) (r : FileUploader.State * list FileUploader.effect)
  : Up :=
  fold_left perform (snd r)
    {| state := fst r; reading := reading u; emitted := emitted u;
       alerts := alerts u |}.

Fixpoint remove_nth {A} (i : nat) (l : list A) {struct l} : list A :=
  match l, i with
  | [], _ => []
  | _ :: l', O => l'
  | x :: l', S j => x :: remove_nth j l'
  end.

Inductive up_event : Type :=
  | drag (kind : jsstring)
  | drop (files : list File)
  | change (files : list File)
  | remove
  | loadend (i : nat) (result : jsstring).
      (* the [i]-th read in progress ends with [reader.result = result] *)

Definition up_step (u : Up) (ev : up_event) : Up :=
  match ev with
  | drag kind =>
      handled u (FileUploader.handleDrag kind (state u), [])
  | drop files => handled u (FileUploader.handleDrop files (state u))
  | change files => handled u (FileUploader.handleChange files (state u))
  | remove => handled u (FileUploader.handleClear (state u))
  | loadend i result =>
      match nth_error (reading u) i with
      | None => u
      | Some file =>
          fold_left perform (FileUploader.reader_onloadend file result)
            {| state := state u; reading := remove_nth i (reading u);
               emitted := emitted u; alerts := alerts u |}
      end
  end.

Definition up_run (u : Up) (evs : list up_event) : Up :=
  fold_left up_step evs u.

(** A payload as the uploader builds it from an accepted file. *)
Definition well_formed (a : AudioData) : Prop :=
  accepted (mimeType a) = true /\ mimeType a = type (blob a).

(** The reads in progress are of accepted files, and so are the payloads
    handed over so far. *)
Definition reads_accepted (u : Up) : Prop :=
  Forall (fun f => accepted (type f) = true) (reading u)
  /\ Forall well_formed (emitted u).

End UploaderRun.

Module SessionInv.

Import Types App Session.


(** A result is held only in status ['success'], and the message is the
    generic one when there is one. *)
Definition coherent (sys : Sys) : Prop :=
  SessionProps.one_call sys
  /\ (truthy (result (app sys)) = true -> status (app sys) = st_success)
  /\ (error (app sys) = None \/ error (app sys) = Some generic_message).


(** A reset control is rendered and enabled. *)
Definition reset_offered (s : State) : bool :=
  ((mode_tabs (render s) && negb (mode_tabs_disabled (render s)))
   || results_section (render s))%bool.

End SessionInv.

(* ================================================================== *)
(** * Properties *)
(* ================================================================== *)

Unset Implicit Arguments.

(** ** The scanner *)

Import ScanInv Service.


Ltac break_if H :=
  repeat match type of H with
         | context [if ?b then _ else _] => destruct b eqn:?
         end.

Lemma step_default_wf toks c ls :
  step_default toks c = Some ls -> wf ls = true.
Proof.
  unfold step_default. intros H. break_if H; inversion H; reflexivity.
Qed.

Lemma step_number_wf st a toks c ls :
  step_number st a toks c = Some ls -> wf ls = true.
Proof.
  unfold step_number, end_number. intros H.
  destruct st; break_if H; try discriminate;
    try (inversion H; reflexivity); eauto using step_default_wf.
Qed.

Lemma step_wf : forall ls c ls',
  wf ls = true -> step ls c = Some ls' -> wf ls' = true.
Proof.
  intros [m toks] c ls' Hwf H. unfold step in H. destruct m.
  - eauto using step_default_wf.
  - break_if H; try discriminate; inversion H; subst; reflexivity.
  - break_if H; try discriminate; inversion H; subst; reflexivity.
  - destruct (hex_value c); [|discriminate].
    destruct remaining as [|[|k]]; inversion H; subst; reflexivity.
  - eauto using step_number_wf.
  - destruct expect as [|e rest]; [discriminate|].
    unfold wf in Hwf. simpl in Hwf. apply andb_true_iff in Hwf.
    destruct (N.eqb c e); [|discriminate H].
    destruct rest; inversion H; subst; [reflexivity|]. apply Hwf.
Qed.

Lemma scan_wf s : forall ls ls',
  wf ls = true -> scan ls s = Some ls' -> wf ls' = true.
Proof.
  induction s as [|c s IH]; simpl; intros ls ls' Hwf H.
  - now inversion H; subst.
  - destruct (step ls c) as [ls1|] eqn:E; [|discriminate].
    eapply IH; [|eassumption]. eapply step_wf; eassumption.
Qed.

Lemma scan_app s t : forall ls,
  scan ls (s ++ t) =
  match scan ls s with Some ls' => scan ls' t | None => None end.
Proof.
  induction s as [|c s IH]; simpl; intros ls; [reflexivity|].
  destruct (step ls c); [apply IH|reflexivity].
Qed.

Lemma lexes_cons ls c s toks :
  lexes ls (c :: s) = Some toks ->
  exists ls', step ls c = Some ls' /\ lexes ls' s = Some toks.
Proof.
  unfold lexes; simpl. destruct (step ls c) as [ls'|]; [|discriminate].
  intros H; exists ls'; auto.
Qed.

Lemma lower_not (e c : code_unit) :
  lower e = true -> (c < 97)%N -> N.eqb c e = false.
Proof.
  unfold lower. intros H Hc. apply andb_true_iff in H as [H _].
  apply N.leb_le in H. apply N.eqb_neq. lia.
Qed.

Lemma step_literal_none : forall e rest tok toks c,
  wf (MLiteral (e :: rest) tok, toks) = true -> (c < 97)%N ->
  step (MLiteral (e :: rest) tok, toks) c = None.
Proof.
  intros e rest tok toks c Hwf Hc.
  unfold wf in Hwf; simpl in Hwf. apply andb_true_iff in Hwf as [He _].
  unfold step. now rewrite (@lower_not e c He Hc).
Qed.

Lemma scan_cons_none : forall ls c r,
  step ls c = None -> scan ls (c :: r) = None.
Proof. intros ls c r H; simpl; now rewrite H. Qed.

Lemma scan_fence_open : forall ls r,
  wf ls = true -> scan ls (fence_open ++ r) = None.
Proof.
  intros [m toks] r Hwf. destruct m; try reflexivity.
  - destruct st; reflexivity.
  - destruct expect as [|e rest]; [reflexivity|].
    change (fence_open ++ r) with (96%N :: (tl fence_open ++ r)).
    apply scan_cons_none, step_literal_none; [exact Hwf|reflexivity].
Qed.

Lemma lexes_fence_open_cut : forall ls,
  wf ls = true -> lexes ls (js "```json") = None.
Proof.
  intros [m toks] Hwf. destruct m; try reflexivity.
  - destruct st; reflexivity.
  - destruct expect as [|e rest]; [reflexivity|].
    unfold lexes.
    change (js "```json") with (96%N :: tl (js "```json")).
    rewrite scan_cons_none; [reflexivity|].
    apply step_literal_none; [exact Hwf|reflexivity].
Qed.

Lemma scan_fence_close : forall ls r,
  wf ls = true -> scan ls (LF :: 96%N :: r) = None.
Proof.
  intros [m toks] r Hwf. destruct m; try reflexivity.
  - destruct st; reflexivity.
  - destruct expect as [|e rest]; [reflexivity|].
    apply scan_cons_none, step_literal_none; [exact Hwf|reflexivity].
Qed.

(** *** Where a fence can match *)

Lemma startsWith_app_inv : forall p s t,
  startsWith (s ++ t) p = true ->
  (exists r, s = p ++ r) \/
  (exists p1 p2, p = p1 ++ p2 /\ s = p1 /\ p2 <> [] /\ startsWith t p2 = true).
Proof.
  induction p as [|d p IH]; intros s t H.
  - left. now exists s.
  - destruct s as [|c s].
    + right. exists [], (d :: p). repeat split; [discriminate|exact H].
    + cbn [app startsWith] in H. apply andb_true_iff in H as [Hc H].
      apply N.eqb_eq in Hc; subst c.
      destruct (IH _ _ H) as [[r ->] | (p1 & p2 & -> & -> & Hp2 & Hs)].
      * left. now exists r.
      * right. exists (d :: p1), p2. repeat split; assumption.
Qed.

Lemma startsWith_nil : forall p, p <> [] -> startsWith [] p = false.
Proof. destruct p; [congruence|reflexivity]. Qed.

Ltac split_fence H Hs :=
  lazymatch type of H with
  | _ = ?p1 ++ ?p2 =>
      destruct p1 as [|? p1]; cbn [app] in H;
      [ subst p2; try (vm_compute in Hs; discriminate Hs)
      | first [ discriminate H
              | injection H as ? H; subst; split_fence H Hs ] ]
  end.

Lemma fence_open_in : forall s t,
  tail_ok t -> startsWith (s ++ t) fence_open = true ->
  (exists r, s = fence_open ++ r) \/ s = js "```json".
Proof.
  intros s t Ht H.
  destruct (startsWith_app_inv _ _ _ H) as [Hl | (p1 & p2 & E & -> & Hp2 & Hs)];
    [now left|].
  destruct Ht as [-> | ->]; [now rewrite startsWith_nil in Hs|].
  right. change fence_open with [96; 96; 96; 106; 115; 111; 110; 10]%N in E.
  split_fence E Hs; try (now elim Hp2); reflexivity.
Qed.

Lemma fence_close_in : forall s t,
  tail_ok t -> s <> [] -> startsWith (s ++ t) fence_close = true ->
  exists r, s = LF :: 96%N :: r.
Proof.
  intros s t Ht Hne H.
  destruct (startsWith_app_inv _ _ _ H) as [[r ->] | (p1 & p2 & E & Hp1 & Hp2 & Hs)].
  - now eexists.
  - subst p1. destruct Ht as [-> | ->]; [now rewrite startsWith_nil in Hs|].
    exfalso. change fence_close with [10; 96; 96; 96]%N in E.
    split_fence E Hs; try (now elim Hp2); now elim Hne.
Qed.

Lemma replace_go_keep : forall c s,
  startsWith (c :: s) fence_open = false ->
  startsWith (c :: s) fence_close = false ->
  replace_go 0 (c :: s) = c :: replace_go 0 s.
Proof. intros c s H1 H2. cbn [replace_go]. now rewrite H1, H2. Qed.

Lemma replace_go_lexes : forall t, tail_ok t ->
  forall s ls toks,
    wf ls = true -> lexes ls s = Some toks ->
    replace_go 0 (s ++ t) = s.
Proof.
  intros t Ht. induction s as [|c r IH]; intros ls toks Hwf Hlex.
  - destruct Ht as [-> | ->]; reflexivity.
  - assert (Ho : startsWith ((c :: r) ++ t) fence_open = false).
    { destruct (startsWith ((c :: r) ++ t) fence_open) eqn:E; [|reflexivity].
      destruct (fence_open_in _ _ Ht E) as [[r' Hr] | Hr]; rewrite Hr in Hlex.
      - unfold lexes in Hlex. now rewrite scan_fence_open in Hlex.
      - now rewrite lexes_fence_open_cut in Hlex. }
    assert (Hc : startsWith ((c :: r) ++ t) fence_close = false).
    { destruct (startsWith ((c :: r) ++ t) fence_close) eqn:E; [|reflexivity].
      destruct (fence_close_in (c :: r) t Ht) as [r' Hr];
        [discriminate|exact E|].
      rewrite Hr in Hlex. unfold lexes in Hlex.
      now rewrite scan_fence_close in Hlex. }
    destruct (lexes_cons _ _ _ _ Hlex) as (ls' & Hstep & Hlex').
    cbn [app] in *. rewrite (replace_go_keep _ _ Ho Hc). f_equal.
    eapply IH; [|exact Hlex']. eapply step_wf; eassumption.
Qed.

(** *** Trimming a JSON text *)

Ltac to_prop :=
  repeat match goal with
         | H : (_ && _)%bool = true |- _ => apply andb_true_iff in H as [? ?]
         | H : (_ || _)%bool = true |- _ => apply orb_true_iff in H
         | H : (_ || _)%bool = false |- _ => apply orb_false_iff in H as [? ?]
         | H : N.eqb _ _ = true |- _ => apply N.eqb_eq in H
         | H : N.eqb _ _ = false |- _ => apply N.eqb_neq in H
         | H : N.leb _ _ = true |- _ => apply N.leb_le in H
         | H : N.leb _ _ = false |- _ => apply N.leb_gt in H
         | H : N.ltb _ _ = true |- _ => apply N.ltb_lt in H
         | H : N.ltb _ _ = false |- _ => apply N.ltb_ge in H
         | H : _ \/ _ |- _ => destruct H
         end.

Lemma trim_space_cases : forall c,
  is_trim_space c = true ->
  (c = 9 \/ c = 10 \/ c = 11 \/ c = 12 \/ c = 13 \/ c = 32 \/ 160 <= c)%N.
Proof.
  unfold is_trim_space. intros c H. to_prop; lia.
Qed.

Lemma step_default_space : forall toks c ls,
  is_trim_space c = true -> step_default toks c = Some ls ->
  ls = (MDefault, toks).
Proof.
  intros toks c ls Hsp H. apply trim_space_cases in Hsp.
  unfold step_default, is_digit in H.
  break_if H; try discriminate H; try (now inversion H);
    exfalso; to_prop; lia.
Qed.

Lemma step_number_space : forall st a toks c ls,
  is_trim_space c = true -> step_number st a toks c = Some ls ->
  complete st = true /\ ls = (MDefault, TNumber (decimal_of a) :: toks).
Proof.
  intros st a toks c ls Hsp H. pose proof (trim_space_cases _ Hsp) as Hc.
  unfold step_number, end_number, is_digit, is_e in H.
  destruct st; cbn [complete] in H |- *;
    break_if H; try discriminate H;
    try (split; [reflexivity|]; eapply step_default_space; eassumption);
    exfalso; to_prop; lia.
Qed.

Lemma step_trim_space : forall ls c ls' toks,
  wf ls = true -> is_trim_space c = true ->
  step ls c = Some ls' -> finish ls' = Some toks -> finish ls = Some toks.
Proof.
  intros [m tk] c ls' toks Hwf Hsp Hstep Hfin.
  pose proof (trim_space_cases _ Hsp) as Hc.
  unfold step in Hstep. destruct m.
  - now rewrite (step_default_space _ _ _ Hsp Hstep) in Hfin.
  - break_if Hstep; try discriminate Hstep; inversion Hstep; subst;
      try discriminate Hfin. exfalso; to_prop; lia.
  - break_if Hstep; try discriminate Hstep; inversion Hstep; subst;
      discriminate Hfin.
  - destruct (hex_value c); [|discriminate Hstep].
    destruct remaining as [|[|k]]; inversion Hstep; subst; discriminate Hfin.
  - destruct (step_number_space _ _ _ _ _ Hsp Hstep) as [Hst ->].
    cbn [finish] in *. now rewrite Hst.
  - destruct expect as [|e rest]; [discriminate Hstep|].
    unfold wf in Hwf; cbn in Hwf. apply andb_true_iff in Hwf as [He _].
    unfold lower in He.
    destruct (N.eqb c e) eqn:E; [|discriminate Hstep].
    exfalso; to_prop; lia.
Qed.

Lemma scan_trim_spaces : forall w ls ls' toks,
  wf ls = true -> forallb is_trim_space w = true ->
  scan ls w = Some ls' -> finish ls' = Some toks -> finish ls = Some toks.
Proof.
  induction w as [|c w IH]; intros ls ls' toks Hwf Hw Hscan Hfin.
  - now inversion Hscan; subst.
  - cbn in Hw, Hscan. apply andb_true_iff in Hw as [Hc Hw].
    destruct (step ls c) as [ls1|] eqn:E; [|discriminate Hscan].
    eapply step_trim_space; [exact Hwf|exact Hc|exact E|].
    eapply IH; [|exact Hw|exact Hscan|exact Hfin].
    eapply step_wf; eassumption.
Qed.

Lemma trimStart_split : forall s,
  exists w, s = w ++ trimStart s /\ forallb is_trim_space w = true.
Proof.
  induction s as [|c s (w & E & Hw)]; [now exists []|].
  cbn [trimStart]. destruct (is_trim_space c) eqn:Hc.
  - exists (c :: w). cbn. now rewrite Hc, Hw, <- E.
  - now exists [].
Qed.

Lemma forallb_rev : forall (f : code_unit -> bool) l,
  forallb f l = true -> forallb f (rev l) = true.
Proof.
  intros f l H. apply forallb_forall. intros x Hx.
  apply in_rev in Hx. revert x Hx. now apply forallb_forall.
Qed.

Lemma trimEnd_split : forall s,
  exists w, s = trimEnd s ++ w /\ forallb is_trim_space w = true.
Proof.
  intros s. destruct (trimStart_split (rev s)) as (w & E & Hw).
  exists (rev w). split; [|now apply forallb_rev].
  unfold trimEnd. rewrite <- rev_app_distr, <- E. now rewrite rev_involutive.
Qed.

Lemma lexes_trimEnd : forall s ls toks,
  wf ls = true -> lexes ls s = Some toks -> lexes ls (trimEnd s) = Some toks.
Proof.
  intros s ls toks Hwf H. destruct (trimEnd_split s) as (w & E & Hw).
  rewrite E in H. unfold lexes in *. rewrite scan_app in H.
  destruct (scan ls (trimEnd s)) as [ls1|] eqn:E1; [|discriminate H].
  destruct (scan ls1 w) as [ls2|] eqn:E2; [|discriminate H].
  eapply scan_trim_spaces; [|exact Hw|exact E2|exact H].
  eapply scan_wf; eassumption.
Qed.

Lemma lexes_trimStart : forall s tk toks,
  lexes (MDefault, tk) s = Some toks ->
  lexes (MDefault, tk) (trimStart s) = Some toks.
Proof.
  induction s as [|c s IH]; intros tk toks H; [exact H|].
  cbn [trimStart]. destruct (is_trim_space c) eqn:Hc; [|exact H].
  destruct (lexes_cons _ _ _ _ H) as (ls' & Hstep & H').
  cbn [step] in Hstep.
  rewrite (step_default_space _ _ _ Hc Hstep) in H'. now apply IH.
Qed.

Lemma lex_trim : forall s toks, lex s = Some toks -> lex (trim s) = Some toks.
Proof.
  intros s toks H. change (lexes (MDefault, []) (trim s) = Some toks).
  unfold trim. apply lexes_trimEnd; [reflexivity|].
  now apply lexes_trimStart.
Qed.

Lemma parse_text_trim : forall s v,
  parse_text s = Some v -> parse_text (trim s) = Some v.
Proof.
  unfold parse_text. intros s v H.
  destruct (lex s) as [ts|] eqn:E; [|discriminate H].
  now rewrite (lex_trim _ _ E).
Qed.

Lemma parse_text_replace_fences : forall s v,
  parse_text s = Some v -> replace_fences s = s.
Proof.
  unfold parse_text. intros s v H.
  destruct (lex s) as [ts|] eqn:E; [|discriminate H].
  unfold replace_fences. rewrite <- (app_nil_r s) at 1.
  eapply replace_go_lexes with (ls := (MDefault, [])); [now left|reflexivity|exact E].
Qed.

Lemma startsWith_app_self : forall p s, startsWith (p ++ s) p = true.
Proof.
  induction p as [|c p IH]; intros s; [reflexivity|].
  cbn [app startsWith]. now rewrite N.eqb_refl, IH.
Qed.

Lemma replace_go_skip : forall p s,
  replace_go (List.length p) (p ++ s) = replace_go 0 s.
Proof.
  induction p as [|c p IH]; intros s; [reflexivity|].
  cbn [app List.length replace_go]. apply IH.
Qed.

Lemma replace_fences_open : forall s,
  replace_fences (fence_open ++ s) = replace_fences s.
Proof.
  intros s. unfold replace_fences.
  pose proof (startsWith_app_self fence_open s) as H.
  change (fence_open ++ s) with (96%N :: (tl fence_open ++ s)) in *.
  cbn [replace_go]. rewrite H.
  change (List.length fence_open - 1)%nat with (List.length (tl fence_open)).
  apply replace_go_skip.
Qed.

Lemma parse_text_replace_fenced : forall s v,
  parse_text s = Some v ->
  replace_fences (fence_open ++ s ++ fence_close) = s.
Proof.
  unfold parse_text. intros s v H.
  destruct (lex s) as [ts|] eqn:E; [|discriminate H].
  rewrite replace_fences_open. unfold replace_fences.
  eapply replace_go_lexes with (ls := (MDefault, [])); [now right|reflexivity|exact E].
Qed.


(* ================================================================== *)
(** ** parseJson *)
(* ================================================================== *)

Lemma JSON_parse_Return : forall s v,
  JSON_parse s = Return v -> parse_text s = Some v.
Proof.
  unfold JSON_parse. intros s v H.
  destruct (parse_text s); now inversion H.
Qed.

Lemma JSON_parse_of_text : forall s v,
  parse_text s = Some v -> JSON_parse s = Return v.
Proof. unfold JSON_parse. now intros s v ->. Qed.

Lemma parseJson_parsed : forall text v,
  JSON_parse (trim (replace_fences text)) = Return v ->
  parseJson text = (Return v, []).
Proof. intros text v H. unfold parseJson. cbn. now rewrite H. Qed.

Lemma parseJson_caught : forall text e,
  JSON_parse (trim (replace_fences text)) = Throw e ->
  parseJson text =
  (Return (JArray []),
   [Service.console_error (js "Failed to parse JSON response:") e]).
Proof. intros text e H. unfold parseJson. cbn. now rewrite H. Qed.

(** [parseJson] never throws. *)
Lemma parseJson_returns : forall text,
  exists v, fst (parseJson text) = Return v.
Proof.
  intros text. destruct (JSON_parse (trim (replace_fences text))) eqn:E.
  - exists a. now rewrite (parseJson_parsed _ _ E).
  - exists (JArray []). now rewrite (parseJson_caught _ _ E).
Qed.

(** Its only events are console messages. *)
Lemma parseJson_events : forall text ev,
  In ev (snd (parseJson text)) -> exists label e, ev = Service.console_error label e.
Proof.
  intros text ev. destruct (JSON_parse (trim (replace_fences text))) eqn:E.
  - now rewrite (parseJson_parsed _ _ E).
  - rewrite (parseJson_caught _ _ E). intros [<- | []]. now eexists _, _.
Qed.

(** C1.  For a raw text that is not JSON after cleaning, [parseJson] does
    not throw, but what it returns is the empty array [[]], which is not
    the object [{ summary: '', segments: [] }]. *)
Theorem parseJson_unparseable : forall text e,
  JSON_parse (trim (replace_fences text)) = Throw e ->
  parseJson text =
    (Return (JArray []),
     [Service.console_error (js "Failed to parse JSON response:") e])
  /\ JArray [] <> Sample.empty_response.
Proof.
  intros text e H. split; [now apply parseJson_caught|discriminate].
Qed.

Lemma parseJson_unparseable_witness :
  JSON_parse (trim (replace_fences (js "not json"))) = Throw SyntaxError
  /\ parseJson (js "not json") =
       (Return (JArray []),
        [Service.console_error (js "Failed to parse JSON response:")
           SyntaxError])
  /\ JArray [] <> Sample.empty_response.
Proof.
  split; [reflexivity|].
  apply (parseJson_unparseable (js "not json") SyntaxError). reflexivity.
Defined.

(** C9, as the code has it.  A JSON text wrapped in exactly the opening
    marker [```json\n] and the closing marker [\n```] is parsed by
    [parseJson] to the value of the text itself, the same value that
    [parseJson] gives for the bare text. *)
Theorem parseJson_fenced : forall payload v,
  JSON_parse payload = Return v ->
  parseJson (fence_open ++ payload ++ fence_close) = (Return v, [])
  /\ parseJson payload = (Return v, []).
Proof.
  intros payload v H. apply JSON_parse_Return in H.
  split; apply parseJson_parsed, JSON_parse_of_text.
  - rewrite (parse_text_replace_fenced _ _ H). now apply parse_text_trim.
  - rewrite (parse_text_replace_fences _ _ H). now apply parse_text_trim.
Qed.

(** Only the opening marker with the [json] tag is recognised: after a bare
    [```] the text that reaches [JSON.parse] still starts with backticks. *)
Lemma parseJson_untagged_fence :
  parseJson (js "```" ++ [LF] ++ js "{}" ++ fence_close)
  = (Return (JArray []),
     [Service.console_error (js "Failed to parse JSON response:")
        SyntaxError]).
Proof. reflexivity. Qed.

Lemma parseJson_fenced_witness :
  JSON_parse Sample.example_text = Return Sample.example_response
  /\ parseJson (fence_open ++ Sample.example_text ++ fence_close)
     = (Return Sample.example_response, [])
  /\ parseJson Sample.example_text = (Return Sample.example_response, []).
Proof.
  split; [vm_compute; reflexivity|].
  apply (parseJson_fenced Sample.example_text Sample.example_response).
  vm_compute; reflexivity.
Defined.

(** C9, as stated, fails.  The regex knows one pair of markers.  Wrapped in
    a fence without the [json] tag, or in the tagged fence with CR LF line
    ends, the same JSON text is not unwrapped: [parseJson] returns the
    empty array, not the value of the text. *)
Lemma parseJson_other_fences :
  JSON_parse Sample.example_text = Return Sample.example_response
  /\ parseJson (js "```" ++ [LF] ++ Sample.example_text ++ fence_close)
     = (Return (JArray []),
        [Service.console_error (js "Failed to parse JSON response:")
           SyntaxError])
  /\ parseJson (js "```json" ++ [13%N; LF] ++ Sample.example_text
                ++ [13%N] ++ fence_close)
     = (Return (JArray []),
        [Service.console_error (js "Failed to parse JSON response:")
           SyntaxError])
  /\ JArray [] <> Sample.example_response.
Proof.
  split; [vm_compute; reflexivity|].
  split; [vm_compute; reflexivity|].
  split; [vm_compute; reflexivity|discriminate].
Qed.

(* ================================================================== *)
(** ** transcribeAudio *)
(* ================================================================== *)

(** [transcribeAudio] is its two halves run one after the other. *)
Lemma transcribeAudio_split : forall env svc b m,
  transcribeAudio env svc b m =
  match transcribeAudio_begin env b m with
  | (Throw e, evs) => (Throw e, evs)
  | (Return (apiKey, params), evs) =>
      let (r, evs') := transcribeAudio_resume (svc apiKey params) in
      (r, evs ++ evs')
  end.
Proof.
  intros env svc b m. unfold transcribeAudio, transcribeAudio_begin.
  destruct (truthy_string (API_KEY env)) as [key|]; [|reflexivity].
  unfold transcribeAudio_resume. cbn -[parseJson].
  destruct (svc key (request b m)) as [r|d]; cbn -[parseJson]; [|reflexivity].
  destruct (truthy_string (response_text r)) as [t|]; cbn -[parseJson];
    [|reflexivity].
  destruct (parseJson t) as [[v|e] evs]; reflexivity.
Qed.

(** With a credential the first event is the request, and it is the only
    request. *)
Lemma transcribeAudio_requests : forall env svc b m apiKey params,
  In (generateContent apiKey params) (snd (transcribeAudio env svc b m)) ->
  truthy_string (API_KEY env) = Some apiKey /\ params = request b m.
Proof.
  intros env svc b m apiKey params. unfold transcribeAudio.
  destruct (truthy_string (API_KEY env)) as [key|]; [|intros []].
  destruct (svc key (request b m)) as [r|d]; cbn -[parseJson].
  - destruct (truthy_string (response_text r)) as [t|]; cbn -[parseJson].
    + destruct (parseJson t) as [[v|e] evs] eqn:E; cbn;
        (intros [H | H]; [now inversion H|]).
      * rewrite app_nil_r in H.
        destruct (parseJson_events t _ ltac:(rewrite E; exact H))
          as (l & x & Hx). discriminate Hx.
      * apply in_app_or in H as [H | [H | []]]; [|discriminate H].
        destruct (parseJson_events t _ ltac:(rewrite E; exact H))
          as (l & x & Hx). discriminate Hx.
    + intros [H | [H | []]]; [now inversion H|discriminate H].
  - intros [H | [H | []]]; [now inversion H|discriminate H].
Qed.

(** C2.  Whatever the arguments, the schema sent with a request marks
    speaker, timestamp, content, language, language_code and emotion as
    required in a segment, and restricts emotion to Happy, Sad, Angry,
    Neutral. *)
Theorem request_schema_required :
  forall env svc base64Audio mimeType apiKey params,
  In (generateContent apiKey params)
     (snd (transcribeAudio env svc base64Audio mimeType)) ->
  exists segments segment emotion,
    property (js "segments") (config_responseSchema (config params))
      = Some segments
    /\ items segments = Some segment
    /\ required segment =
         Some [ js "speaker"; js "timestamp"; js "content"; js "language";
                js "language_code"; js "emotion" ]
    /\ property (js "emotion") segment = Some emotion
    /\ enum emotion = Some [ js "Happy"; js "Sad"; js "Angry"; js "Neutral" ].
Proof.
  intros env svc b m apiKey params H.
  apply transcribeAudio_requests in H as [_ ->].
  now eexists _, _, _.
Qed.

Lemma request_schema_required_witness :
  let params := request (Some (js "Ukk=")) (js "audio/wav") in
  In (generateContent (js "k") params)
     (snd (transcribeAudio Sample.with_key Sample.answers_example
             (Some (js "Ukk=")) (js "audio/wav")))
  /\ exists segments segment emotion,
    property (js "segments") (config_responseSchema (config params))
      = Some segments
    /\ items segments = Some segment
    /\ required segment =
         Some [ js "speaker"; js "timestamp"; js "content"; js "language";
                js "language_code"; js "emotion" ]
    /\ property (js "emotion") segment = Some emotion
    /\ enum emotion = Some [ js "Happy"; js "Sad"; js "Angry"; js "Neutral" ].
Proof.
  assert (H : In (generateContent (js "k")
                    (request (Some (js "Ukk=")) (js "audio/wav")))
                 (snd (transcribeAudio Sample.with_key Sample.answers_example
                         (Some (js "Ukk=")) (js "audio/wav")))).
  { left. reflexivity. }
  split; [exact H|].
  exact (request_schema_required _ _ _ _ _ _ H).
Defined.

(** C6.  Without a credential [transcribeAudio] throws the
    credential-missing error and produces no event, hence no request;
    a rejected request fails with another error, after its request. *)
Theorem transcribeAudio_missing_key : forall env svc base64Audio mimeType,
  truthy_string (API_KEY env) = None ->
  transcribeAudio env svc base64Audio mimeType
    = (Throw (Error missing_key_message), [])
  /\ forall env' svc' b' m' apiKey detail,
       truthy_string (API_KEY env') = Some apiKey ->
       svc' apiKey (request b' m') = rejected detail ->
       transcribeAudio env' svc' b' m'
         = (Throw (ServiceFailure detail),
            [ generateContent apiKey (request b' m');
              Service.console_error (js "Gemini Transcription Error:")
                (ServiceFailure detail) ])
       /\ ServiceFailure detail <> Error missing_key_message.
Proof.
  intros env svc b m H. unfold transcribeAudio. rewrite H.
  split; [reflexivity|].
  intros env' svc' b' m' apiKey detail Hk Hr. rewrite Hk.
  cbn. rewrite Hr. split; [reflexivity|discriminate].
Qed.

Lemma transcribeAudio_missing_key_witness :
  truthy_string (API_KEY Sample.no_key) = None
  /\ transcribeAudio Sample.no_key Sample.answers_example
       (Some (js "Ukk=")) (js "audio/wav")
     = (Throw (Error missing_key_message), []).
Proof.
  split; [reflexivity|].
  apply (transcribeAudio_missing_key Sample.no_key Sample.answers_example
           (Some (js "Ukk=")) (js "audio/wav")).
  reflexivity.
Defined.

(* ================================================================== *)
(** ** FileUploader *)
(* ================================================================== *)

(** C7.  A file whose declared MIME type starts with neither [audio/] nor
    [video/] is answered with the alert alone: the uploader's state is
    unchanged, no read is started and [onFileSelected] is not called,
    whether the file was dropped or picked. *)
Theorem processFile_rejects : forall (file : Types.File) others st,
  startsWith (Types.type file) (js "audio/") = false ->
  startsWith (Types.type file) (js "video/") = false ->
  FileUploader.processFile file st
    = (st, [FileUploader.alert (js "Please upload a valid audio file.")])
  /\ snd (FileUploader.handleChange (file :: others) st)
     = [FileUploader.alert (js "Please upload a valid audio file.")]
  /\ snd (FileUploader.handleDrop (file :: others) st)
     = [FileUploader.alert (js "Please upload a valid audio file.")]
  /\ forall a, ~ In (FileUploader.onFileSelected a)
                    (snd (FileUploader.processFile file st)).
Proof.
  intros file others st Ha Hv.
  assert (E : forall st', FileUploader.processFile file st'
            = (st', [FileUploader.alert
                       (js "Please upload a valid audio file.")])).
  { intros st'. unfold FileUploader.processFile. now rewrite Ha, Hv. }
  repeat split.
  - apply E.
  - unfold FileUploader.handleChange. now rewrite E.
  - unfold FileUploader.handleDrop. now rewrite E.
  - intros a. rewrite E. intros [H | []]. discriminate H.
Qed.

Lemma processFile_rejects_witness :
  let st := {| FileUploader.dragActive := false;
               FileUploader.fileName := None;
               FileUploader.input_value := [] |} in
  startsWith (Types.type Sample.pdf) (js "audio/") = false
  /\ startsWith (Types.type Sample.pdf) (js "video/") = false
  /\ FileUploader.processFile Sample.pdf st
     = (st, [FileUploader.alert (js "Please upload a valid audio file.")]).
Proof.
  split; [reflexivity|]. split; [reflexivity|].
  apply (processFile_rejects Sample.pdf [] _); reflexivity.
Defined.

(** An accepted file is named and read; the payload is emitted when the
    read ends. *)
Lemma processFile_accepts : forall (file : Types.File) st,
  (startsWith (Types.type file) (js "audio/")
   || startsWith (Types.type file) (js "video/"))%bool = true ->
  snd (FileUploader.processFile file st) = [FileUploader.readAsDataURL file]
  /\ FileUploader.fileName (fst (FileUploader.processFile file st))
     = Some (Types.name file).
Proof.
  intros file st H. unfold FileUploader.processFile.
  rewrite <- negb_orb, H. now split.
Qed.

(* ================================================================== *)
(** ** The session controller *)
(* ================================================================== *)

Import Types App Session SessionProps.

Lemma is_status_true : forall x s, is_status x s = true <-> status s = x.
Proof.
  intros x s. unfold is_status.
  destruct x, (status s); split; intros H; try reflexivity; discriminate H.
Qed.

Lemma is_status_false : forall x s, is_status x s = false <-> status s <> x.
Proof.
  intros x s. unfold is_status.
  destruct x, (status s); split; intros H; congruence.
Qed.

(** [handleTranscribe] run synchronously is the asynchronous run in which
    nothing happens between the call and the settlement. *)
Lemma handleTranscribe_async : forall env svc s a o,
  audioData s = Some a ->
  (forall key, Service.truthy_string (Service.API_KEY env) = Some key ->
     o = svc key (Service.request (base64 a) (mimeType a))) ->
  let sys := {| app := s; pending := []; log := [] |} in
  settle o (call_handleTranscribe env sys)
  = {| app := fst (handleTranscribe env svc s);
       pending := [];
       log := snd (handleTranscribe env svc s) |}.
Proof.
  intros env svc s a o Ha Ho sys.
  unfold call_handleTranscribe, handleTranscribe, handleTranscribe_begin.
  cbn [app sys]. rewrite Ha. rewrite transcribeAudio_split.
  unfold Service.transcribeAudio_begin.
  destruct (Service.truthy_string (Service.API_KEY env)) as [key|] eqn:Ek.
  - rewrite (Ho key eq_refl). cbn -[Service.transcribeAudio_resume].
    unfold settle. cbn -[Service.transcribeAudio_resume].
    destruct (Service.transcribeAudio_resume _) as [[v|e] evs];
      cbn; now rewrite ?app_nil_r.
  - reflexivity.
Qed.

(** C5.  A capture delivered while the session is idle, ready or in error
    leaves it ready with the new payload, and the previous response is
    discarded. *)
Theorem handleAudioReady_ready : forall s data,
  (session_state s = s_idle
   \/ (exists p, session_state s = s_ready p)
   \/ (exists p m, session_state s = s_error p m)) ->
  let s' := handleAudioReady data s in
  session_state s' = s_ready data
  /\ audioData s' = Some data
  /\ result s' = JNull
  /\ generate_button (render s') = true.
Proof.
  intros s data H s'.
  assert (Hp : is_status st_processing s = false).
  { unfold session_state in H.
    destruct (is_status st_processing s); [|reflexivity].
    destruct H as [H | [[p H] | (p & m & H)]]; discriminate H. }
  unfold s', handleAudioReady, session_state, render, is_status in *.
  cbn in *. rewrite Hp.
  destruct (status s); repeat split; reflexivity.
Qed.

Lemma handleAudioReady_ready_witness :
  let s := {| mode := upload; status := st_error;
              audioData := Some Sample.clipA;
              result := Sample.example_response;
              error := Some generic_message |} in
  (session_state s = s_idle
   \/ (exists p, session_state s = s_ready p)
   \/ (exists p m, session_state s = s_error p m))
  /\ session_state (handleAudioReady Sample.clipB s) = s_ready Sample.clipB
  /\ audioData (handleAudioReady Sample.clipB s) = Some Sample.clipB
  /\ result (handleAudioReady Sample.clipB s) = JNull
  /\ generate_button (render (handleAudioReady Sample.clipB s)) = true.
Proof.
  intros s.
  assert (H : session_state s = s_idle
              \/ (exists p, session_state s = s_ready p)
              \/ (exists p m, session_state s = s_error p m)).
  { right. right. exists (Some Sample.clipA), generic_message. reflexivity. }
  split; [exact H|].
  exact (handleAudioReady_ready s Sample.clipB H).
Defined.

(** C8.  When the request fails in transport, [handleTranscribe] ends with
    status ['error'] and the generic message, and with the payload it
    started from: the Generate Transcript button is offered again. *)
Theorem handleTranscribe_transport_failure : forall env svc s a key,
  audioData s = Some a ->
  Service.truthy_string (Service.API_KEY env) = Some key ->
  transport_failure (svc key (Service.request (base64 a) (mimeType a))) ->
  let s' := fst (handleTranscribe env svc s) in
  status s' = st_error
  /\ audioData s' = Some a
  /\ error s' = Some generic_message
  /\ result s' = result s
  /\ session_state s' = s_error (Some a) generic_message
  /\ generate_button (render s') = negb (truthy (result s)).
Proof.
  intros env svc s a key Ha Hk Hf s'.
  assert (E : exists e evs,
             Service.transcribeAudio env svc (base64 a) (mimeType a)
             = (Throw e, evs)).
  { unfold Service.transcribeAudio. rewrite Hk. cbn -[Service.parseJson].
    destruct (svc key (Service.request (base64 a) (mimeType a))) as [r|d];
      cbn -[Service.parseJson] in *.
    - rewrite Hf. cbn. now eexists _, _.
    - now eexists _, _. }
  destruct E as (e & evs & E).
  unfold s', handleTranscribe, handleTranscribe_begin. rewrite Ha, E.
  cbn. repeat split; try reflexivity; now destruct (truthy (result s)).
Qed.

Lemma handleTranscribe_transport_failure_witness :
  let s := handleAudioReady Sample.clipA initial in
  let s' := fst (handleTranscribe Sample.with_key Sample.unreachable_service s) in
  audioData s = Some Sample.clipA
  /\ Service.truthy_string (Service.API_KEY Sample.with_key) = Some (js "k")
  /\ transport_failure
       (Sample.unreachable_service (js "k")
          (Service.request (base64 Sample.clipA) (mimeType Sample.clipA)))
  /\ status s' = st_error
  /\ audioData s' = Some Sample.clipA
  /\ error s' = Some generic_message
  /\ result s' = result s
  /\ session_state s' = s_error (Some Sample.clipA) generic_message
  /\ generate_button (render s') = negb (truthy (result s)).
Proof.
  intros s s'.
  split; [reflexivity|]. split; [reflexivity|]. split; [exact I|].
  apply (handleTranscribe_transport_failure Sample.with_key
           Sample.unreachable_service s Sample.clipA (js "k"));
    [reflexivity|reflexivity|exact I].
Defined.

(** C10.  Removing the file in the uploader clears the uploader's file
    name and input and nothing else: the controller's state, so its
    payload, is the same, the Generate Transcript button is rendered as
    before, and [handleTranscribe] still starts on that payload. *)
Theorem click_remove_keeps_payload : forall s up a,
  audioData s = Some a ->
  let page' := click_remove (s, up) in
  fst page' = s
  /\ FileUploader.fileName (snd page') = None
  /\ FileUploader.input_value (snd page') = []
  /\ FileUploader.dragActive (snd page') = FileUploader.dragActive up
  /\ audioData (fst page') = Some a
  /\ generate_button (render (fst page')) = generate_button (render s)
  /\ snd (handleTranscribe_begin (fst page')) = Some a.
Proof.
  intros s up a Ha page'. unfold page', click_remove. cbn.
  unfold handleTranscribe_begin. rewrite Ha. now repeat split.
Qed.

Lemma click_remove_keeps_payload_witness :
  let s := handleAudioReady Sample.clipA initial in
  let up := {| FileUploader.dragActive := false;
               FileUploader.fileName := Some (js "a.wav");
               FileUploader.input_value := js "C:\fakepath\a.wav" |} in
  audioData s = Some Sample.clipA
  /\ fst (click_remove (s, up)) = s
  /\ FileUploader.fileName (snd (click_remove (s, up))) = None
  /\ FileUploader.input_value (snd (click_remove (s, up))) = []
  /\ FileUploader.dragActive (snd (click_remove (s, up))) = false
  /\ audioData (fst (click_remove (s, up))) = Some Sample.clipA
  /\ generate_button (render (fst (click_remove (s, up))))
     = generate_button (render s)
  /\ snd (handleTranscribe_begin (fst (click_remove (s, up))))
     = Some Sample.clipA.
Proof.
  intros s up. split; [reflexivity|].
  apply (click_remove_keeps_payload s up Sample.clipA). reflexivity.
Defined.

(** *** One call at a time *)

Lemma one_call_initial : one_call initial_sys.
Proof. reflexivity. Qed.

Lemma one_call_step : forall env sys ev,
  one_call sys -> one_call (ui_step env sys ev).
Proof.
  intros env [[md st ad rs er] p l] ev H.
  unfold one_call, ui_step, render, is_status in *. cbn in *.
  destruct ev as [m| | |data|o].
  - (* a mode tab *)
    destruct st, (truthy rs); cbn; exact H.
  - (* Generate Transcript *)
    destruct st, (truthy rs), ad as [a|]; cbn; try exact H; subst p;
      unfold call_handleTranscribe; cbn;
      now destruct (Service.transcribeAudio_begin env (base64 a) (mimeType a))
        as [[[k prm]|e] evs].
  - (* Start Over *)
    destruct st, (truthy rs); cbn; exact H.
  - (* a capture is delivered *)
    destruct st; exact H.
  - (* the awaited call settles *)
    unfold settle. cbn. destruct p as [|c rest]; [exact H|].
    destruct st; try discriminate H.
    destruct rest; [|discriminate H].
    destruct c as [e|k prm]; [reflexivity|].
    now destruct (Service.transcribeAudio_resume o) as [[v|e] evs].
Qed.

Lemma one_call_run : forall env evs sys,
  one_call sys -> one_call (ui_run env sys evs).
Proof.
  intros env evs. unfold ui_run.
  induction evs as [|ev evs IH]; intros sys H; [exact H|].
  cbn. apply IH. now apply one_call_step.
Qed.

Lemma one_call_bound : forall sys,
  one_call sys -> (List.length (pending sys) <= 1)%nat.
Proof.
  intros sys. unfold one_call.
  destruct (is_status st_processing (app sys)); intros ->; auto.
Qed.

Lemma in_flight_le_pending : forall sys,
  (in_flight sys <= List.length (pending sys))%nat.
Proof. intros sys. unfold in_flight. apply filter_length_le. Qed.

(** C3.  On every run at most one call is awaited, so at most one request
    is in flight: while the status is ['processing'] the Generate
    Transcript button, the only caller of [handleTranscribe], is not
    rendered, and a transcription-start click changes nothing and
    dispatches nothing. *)
Theorem one_request_in_flight : forall env evs,
  let sys := ui_run env initial_sys evs in
  (List.length (pending sys) <= 1)%nat
  /\ (in_flight sys <= 1)%nat
  /\ (status (app sys) = st_processing ->
      generate_button (render (app sys)) = false
      /\ ui_step env sys click_generate = sys).
Proof.
  intros env evs sys.
  assert (H : one_call sys) by apply one_call_run, one_call_initial.
  apply one_call_bound in H.
  split; [exact H|]. split.
  - pose proof (in_flight_le_pending sys). lia.
  - intros Hp.
    assert (Hb : generate_button (render (app sys)) = false).
    { unfold render, is_status. cbn. rewrite Hp. cbn.
      now rewrite andb_false_r. }
    split; [exact Hb|]. unfold ui_step. now rewrite Hb.
Qed.

Lemma one_request_in_flight_witness :
  let sys := ui_run Sample.with_key initial_sys
               [captured Sample.clipA; click_generate] in
  status (app sys) = st_processing
  /\ (List.length (pending sys) <= 1)%nat
  /\ (in_flight sys <= 1)%nat
  /\ generate_button (render (app sys)) = false
  /\ ui_step Sample.with_key sys click_generate = sys.
Proof.
  intros sys.
  destruct (one_request_in_flight Sample.with_key
              [captured Sample.clipA; click_generate]) as (H1 & H2 & H3).
  split; [reflexivity|]. split; [exact H1|]. split; [exact H2|].
  apply H3. reflexivity.
Defined.

(** C4, as the code has it.  The continuation of [handleTranscribe]
    applies the response to whatever state it finds: the result is set and
    the status becomes ['success'], the payload, message and mode staying
    as they are.  While the status is ['processing'] the view offers no
    reset: the mode tabs are disabled and Start Over is not rendered. *)
Theorem response_applied_on_arrival : forall env sys data,
  (let s' := fst (handleTranscribe_resume (Return data) (app sys)) in
   status s' = st_success
   /\ result s' = data
   /\ audioData s' = audioData (app sys)
   /\ error s' = error (app sys)
   /\ mode s' = mode (app sys))
  /\ (status (app sys) = st_processing ->
      (forall m, ui_step env sys (click_tab m) = sys)
      /\ ui_step env sys click_start_over = sys).
Proof.
  intros env sys data. split; [now repeat split|].
  intros Hp. unfold ui_step, render. cbn.
  unfold is_status. rewrite Hp. cbn.
  now rewrite !andb_false_r.
Qed.

Lemma response_applied_on_arrival_witness :
  let sys := ui_run Sample.with_key initial_sys
               [captured Sample.clipA; click_generate] in
  status (app sys) = st_processing
  /\ (forall m, ui_step Sample.with_key sys (click_tab m) = sys)
  /\ ui_step Sample.with_key sys click_start_over = sys.
Proof.
  intros sys. split; [reflexivity|].
  apply (proj2 (response_applied_on_arrival Sample.with_key sys JNull)).
  reflexivity.
Defined.

(** C4, as stated, fails.  A capture that arrives while the request for
    the first clip is in flight replaces the payload; the response to the
    first clip is applied all the same.  So is a response that arrives
    after [handleReset]. *)
Lemma stale_response_applied :
  let answer :=
    Service.resolved
      {| Service.response_text := Some Sample.example_text |} in
  let sys1 := ui_run Sample.with_key initial_sys
                [captured Sample.clipA; click_generate] in
  let superseded := ui_step Sample.with_key sys1 (captured Sample.clipB) in
  let reset := with_app sys1 (handleReset (app sys1)) in
  (audioData (app superseded) = Some Sample.clipB
   /\ result (app superseded) = JNull
   /\ audioData (app (settle answer superseded)) = Some Sample.clipB
   /\ status (app (settle answer superseded)) = st_success
   /\ result (app (settle answer superseded)) = Sample.example_response)
  /\ (app reset = initial
      /\ audioData (app (settle answer reset)) = None
      /\ status (app (settle answer reset)) = st_success
      /\ result (app (settle answer reset)) = Sample.example_response).
Proof. vm_compute. repeat split. Qed.

(** The empty array that [parseJson] falls back to is truthy and reaches
    the results view as a success, where reading its segments throws. *)
Lemma unparseable_response_reaches_display :
  let svc : Service.service :=
    fun _ _ =>
      Service.resolved {| Service.response_text := Some (js "not json") |} in
  let s' := fst (handleTranscribe Sample.with_key svc
                   (handleAudioReady Sample.clipA initial)) in
  status s' = st_success
  /\ result s' = JArray []
  /\ results_section (render s') = true
  /\ TranscriptionDisplay.segments (result s') = Throw TypeError
  /\ TranscriptionDisplay.segments Sample.empty_response = Return [].
Proof. repeat split. Qed.

(* ================================================================== *)
(** * Further properties of the code *)
(* ================================================================== *)

Import Padding.

(** ** Cleaning and parsing *)

Lemma space_not_backtick : forall c, is_trim_space c = true -> N.eqb c 96 = false.
Proof.
  intros c H. apply trim_space_cases in H. apply N.eqb_neq. lia.
Qed.

Lemma all_space_led : forall w, all_space w = true -> space_led w.
Proof.
  intros [|c w] H; [exact I|]. cbn in H. now apply andb_true_iff in H.
Qed.

Ltac split_led E Hs Hsp :=
  lazymatch type of E with
  | _ = ?p1 ++ ?p2 =>
      destruct p1 as [|? p1]; cbn [List.app] in E;
      [ subst p2;
        try (cbn [startsWith] in Hs;
             apply andb_true_iff in Hs as [Hs _]; apply N.eqb_eq in Hs;
             try (rewrite Hs in Hsp; vm_compute in Hsp; discriminate Hsp))
      | first [ discriminate E
              | injection E as ? E; subst; split_led E Hs Hsp ] ]
  end.

Lemma fence_open_before : forall s t,
  space_led t -> startsWith (s ++ t) fence_open = true ->
  (exists r, s = fence_open ++ r) \/ s = js "```json".
Proof.
  intros s t Ht H.
  destruct (startsWith_app_inv _ _ _ H)
    as [Hl | (p1 & p2 & E & -> & Hp2 & Hs)]; [now left|].
  destruct t as [|c t]; [now rewrite startsWith_nil in Hs|].
  cbn in Ht. right.
  change fence_open with [96; 96; 96; 106; 115; 111; 110; 10]%N in E.
  split_led E Hs Ht; try (now elim Hp2); reflexivity.
Qed.

Lemma fence_close_before : forall s t,
  space_led t -> s <> [] -> startsWith (s ++ t) fence_close = true ->
  exists r, s = LF :: 96%N :: r.
Proof.
  intros s t Ht Hne H.
  destruct (startsWith_app_inv _ _ _ H)
    as [[r ->] | (p1 & p2 & E & Hp1 & Hp2 & Hs)]; [now eexists|].
  subst p1. destruct t as [|c t]; [now rewrite startsWith_nil in Hs|].
  cbn in Ht. exfalso.
  change fence_close with [10; 96; 96; 96]%N in E.
  split_led E Hs Ht; try (now elim Hp2); now elim Hne.
Qed.

(** The regex finds nothing inside a text the scanner accepts, nor across
    its end. *)
Lemma replace_go_lexes_led : forall t, space_led t ->
  forall s ls toks,
    wf ls = true -> lexes ls s = Some toks ->
    replace_go 0 (s ++ t) = s ++ replace_go 0 t.
Proof.
  intros t Ht. induction s as [|c r IH]; intros ls toks Hwf Hlex;
    [reflexivity|].
  assert (Ho : startsWith ((c :: r) ++ t) fence_open = false).
  { destruct (startsWith ((c :: r) ++ t) fence_open) eqn:E; [|reflexivity].
    destruct (fence_open_before _ _ Ht E) as [[r' Hr] | Hr];
      rewrite Hr in Hlex.
    - unfold lexes in Hlex. now rewrite scan_fence_open in Hlex.
    - now rewrite lexes_fence_open_cut in Hlex. }
  assert (Hc : startsWith ((c :: r) ++ t) fence_close = false).
  { destruct (startsWith ((c :: r) ++ t) fence_close) eqn:E; [|reflexivity].
    destruct (fence_close_before (c :: r) t Ht) as [r' Hr];
      [discriminate|exact E|].
    rewrite Hr in Hlex. unfold lexes in Hlex.
    now rewrite scan_fence_close in Hlex. }
  destruct (lexes_cons _ _ _ _ Hlex) as (ls' & Hstep & Hlex').
  cbn [List.app] in *. rewrite (replace_go_keep _ _ Ho Hc). f_equal.
  eapply IH; [|exact Hlex']. eapply step_wf; eassumption.
Qed.

Lemma ends_with_LF_snoc : forall w, ends_with_LF (w ++ [LF]) = true.
Proof. intros w. unfold ends_with_LF. now rewrite rev_app_distr. Qed.

Lemma ends_with_LF_cons : forall c d w,
  ends_with_LF (c :: d :: w) = ends_with_LF (d :: w).
Proof.
  intros c d w. unfold ends_with_LF. cbn [rev].
  destruct (rev w ++ [d]) eqn:E; [now destruct (rev w)|reflexivity].
Qed.

(** Leading white space is kept as it is, unless it ends in a line feed
    that three backticks follow. *)
Lemma replace_go_spaces : forall w rest,
  all_space w = true ->
  (ends_with_LF w = false \/ startsWith rest (js "```") = false) ->
  replace_go 0 (w ++ rest) = w ++ replace_go 0 rest.
Proof.
  induction w as [|c w IH]; intros rest Hw H; [reflexivity|].
  cbn in Hw. apply andb_true_iff in Hw as [Hc Hw].
  cbn [List.app]. rewrite replace_go_keep.
  - f_equal. apply IH; [exact Hw|].
    destruct H as [H | H]; [|now right].
    destruct w as [|d w]; [now left|]. left.
    now rewrite ends_with_LF_cons in H.
  - cbn [fence_open js list_ascii_of_string map List.app startsWith].
    change (N_of_ascii "`") with 96%N.
    now rewrite (space_not_backtick _ Hc).
  - change fence_close with (LF :: js "```").
    cbn [startsWith]. destruct (N.eqb c LF) eqn:Ec; [|reflexivity].
    cbn [andb]. destruct w as [|d w].
    + destruct H as [H | H]; [|exact H].
      apply N.eqb_eq in Ec; subst c. discriminate H.
    + cbn in Hw. apply andb_true_iff in Hw as [Hd _].
      change (js "```") with [96; 96; 96]%N. cbn [List.app startsWith].
      now rewrite (space_not_backtick _ Hd).
Qed.

Lemma replace_go_all_space : forall w,
  all_space w = true -> replace_go 0 w = w.
Proof.
  intros w Hw. rewrite <- (app_nil_r w) at 1.
  rewrite replace_go_spaces; [now rewrite app_nil_r|exact Hw|now right].
Qed.

Lemma replace_go_close : forall s,
  replace_go 0 (fence_close ++ s) = replace_go 0 s.
Proof.
  intros s. pose proof (startsWith_app_self fence_close s) as H.
  change (fence_close ++ s) with (LF :: (tl fence_close ++ s)) in *.
  cbn [replace_go]. rewrite H.
  change (List.length fence_close - 1)%nat with (List.length (tl fence_close)).
  change (startsWith (LF :: tl fence_close ++ s) fence_open) with false.
  apply replace_go_skip.
Qed.

(** *** Trimming padded text *)

Lemma trimStart_spaces_app : forall w x,
  all_space w = true -> trimStart (w ++ x) = trimStart x.
Proof.
  induction w as [|c w IH]; intros x H; [reflexivity|].
  cbn in H. apply andb_true_iff in H as [Hc Hw].
  cbn [List.app trimStart]. rewrite Hc. now apply IH.
Qed.

Lemma trimStart_app : forall s t,
  trimStart s <> [] -> trimStart (s ++ t) = trimStart s ++ t.
Proof.
  induction s as [|c s IH]; intros t H; [now elim H|].
  cbn [List.app trimStart] in *. destruct (is_trim_space c); [now apply IH|].
  reflexivity.
Qed.

Lemma trimEnd_app_spaces : forall x w,
  all_space w = true -> trimEnd (x ++ w) = trimEnd x.
Proof.
  intros x w H. unfold trimEnd. rewrite rev_app_distr.
  rewrite trimStart_spaces_app; [reflexivity|].
  now apply forallb_rev.
Qed.

Lemma trim_padded : forall w1 s w2,
  all_space w1 = true -> all_space w2 = true -> trimStart s <> [] ->
  trim (w1 ++ s ++ w2) = trim s.
Proof.
  intros w1 s w2 H1 H2 Hs. unfold trim.
  rewrite trimStart_spaces_app by exact H1.
  rewrite trimStart_app by exact Hs.
  now apply trimEnd_app_spaces.
Qed.

Lemma parsed_not_blank : forall s v,
  parse_text s = Some v -> trimStart s <> [].
Proof.
  unfold parse_text. intros s v H E.
  destruct (lex s) as [ts|] eqn:El; [|discriminate H].
  apply (lexes_trimStart s [] ts) in El. rewrite E in El.
  inversion El; subst ts. discriminate H.
Qed.

Lemma parsed_head : forall s v,
  parse_text s = Some v -> startsWith s (js "```") = false.
Proof.
  unfold parse_text. intros s v H.
  destruct (lex s) as [ts|] eqn:El; [|discriminate H].
  destruct s as [|c s]; [reflexivity|].
  change (js "```") with [96; 96; 96]%N. cbn [startsWith].
  destruct (N.eqb c 96) eqn:Ec; [|reflexivity].
  apply N.eqb_eq in Ec; subst c. discriminate El.
Qed.

Lemma lex_of_parsed : forall s v,
  parse_text s = Some v -> exists ts, lexes (MDefault, []) s = Some ts.
Proof.
  unfold parse_text. intros s v H.
  destruct (lex s) as [ts|] eqn:El; [|discriminate H]. now exists ts.
Qed.

(** X1.  [parseJson] never throws: it returns the parsed value and logs
    nothing, or it returns the empty array and logs the error once. *)
Theorem parseJson_total : forall text,
  (exists v, JSON_parse (trim (replace_fences text)) = Return v
             /\ parseJson text = (Return v, []))
  \/ (exists e, JSON_parse (trim (replace_fences text)) = Throw e
                /\ parseJson text =
                   (Return (JArray []),
                    [Service.console_error
                       (js "Failed to parse JSON response:") e])).
Proof.
  intros text. destruct (JSON_parse (trim (replace_fences text))) eqn:E.
  - left. exists a. split; [reflexivity|now apply parseJson_parsed].
  - right. exists e. split; [reflexivity|now apply parseJson_caught].
Qed.

(** X2.  White space around a JSON text, of any kind that [trim] removes
    (a byte order mark and a no-break space included), does not change
    what [parseJson] returns. *)
Theorem parseJson_padded : forall w1 payload w2 v,
  all_space w1 = true -> all_space w2 = true ->
  JSON_parse payload = Return v ->
  parseJson (w1 ++ payload ++ w2) = (Return v, []).
Proof.
  intros w1 s w2 v H1 H2 H. apply JSON_parse_Return in H.
  apply parseJson_parsed, JSON_parse_of_text.
  destruct (lex_of_parsed _ _ H) as (ts & Hts).
  unfold replace_fences.
  rewrite replace_go_spaces;
    [|exact H1|right].
  - rewrite (replace_go_lexes_led w2 (all_space_led _ H2) s (MDefault, []) ts
               eq_refl Hts).
    rewrite (replace_go_all_space _ H2).
    rewrite (trim_padded _ _ _ H1 H2 (parsed_not_blank _ _ H)).
    now apply parse_text_trim.
  - pose proof (parsed_head _ _ H) as Hh.
    pose proof (parsed_not_blank _ _ H) as Hb.
    destruct s as [|c s]; [now elim Hb|].
    change (js "```") with [96; 96; 96]%N in *. cbn [List.app startsWith] in *.
    destruct (N.eqb c 96) eqn:Ec; [|reflexivity].
    apply N.eqb_eq in Ec; subst c.
    unfold lexes in Hts. discriminate Hts.
Qed.

Lemma parseJson_padded_witness :
  all_space [65279; 32]%N = true
  /\ all_space [160; 10]%N = true
  /\ JSON_parse Sample.example_text = Return Sample.example_response
  /\ parseJson ([65279; 32]%N ++ Sample.example_text ++ [160; 10]%N)
     = (Return Sample.example_response, []).
Proof.
  split; [reflexivity|]. split; [reflexivity|].
  split; [vm_compute; reflexivity|].
  apply (parseJson_padded [65279; 32]%N Sample.example_text [160; 10]%N
           Sample.example_response);
    [reflexivity|reflexivity|vm_compute; reflexivity].
Defined.

(** X3.  A fenced JSON text is still parsed when white space surrounds the
    fences, provided the white space before the opening fence does not
    end in a line feed. *)
Theorem parseJson_fenced_padded : forall w1 payload w2 v,
  all_space w1 = true -> ends_with_LF w1 = false ->
  all_space w2 = true ->
  JSON_parse payload = Return v ->
  parseJson (w1 ++ (fence_open ++ payload ++ fence_close) ++ w2)
  = (Return v, []).
Proof.
  intros w1 s w2 v H1 Hlf H2 H. apply JSON_parse_Return in H.
  apply parseJson_parsed, JSON_parse_of_text.
  destruct (lex_of_parsed _ _ H) as (ts & Hts).
  unfold replace_fences.
  rewrite replace_go_spaces; [|exact H1|now left].
  rewrite <- !app_assoc.
  change (replace_go 0 (fence_open ++ s ++ fence_close ++ w2))
    with (replace_fences (fence_open ++ s ++ fence_close ++ w2)).
  rewrite replace_fences_open. unfold replace_fences.
  rewrite (replace_go_lexes_led (fence_close ++ w2) eq_refl s (MDefault, [])
             ts eq_refl Hts).
  rewrite replace_go_close, (replace_go_all_space _ H2).
  rewrite (trim_padded _ _ _ H1 H2 (parsed_not_blank _ _ H)).
  now apply parse_text_trim.
Qed.

Lemma parseJson_fenced_padded_witness :
  all_space (js "  ") = true
  /\ ends_with_LF (js "  ") = false
  /\ all_space [LF] = true
  /\ JSON_parse Sample.example_text = Return Sample.example_response
  /\ parseJson (js "  "
                ++ (fence_open ++ Sample.example_text ++ fence_close)
                ++ [LF])
     = (Return Sample.example_response, []).
Proof.
  split; [reflexivity|]. split; [reflexivity|]. split; [reflexivity|].
  split; [vm_compute; reflexivity|].
  apply (parseJson_fenced_padded (js "  ") Sample.example_text [LF]
           Sample.example_response);
    [reflexivity|reflexivity|reflexivity|vm_compute; reflexivity].
Defined.

Lemma trim_keeps_head : forall c s,
  is_trim_space c = false -> exists r, trim (c :: s) = c :: r.
Proof.
  intros c s Hc. unfold trim. cbn [trimStart]. rewrite Hc.
  destruct (trimEnd_split (c :: s)) as (w & E & Hw).
  destruct (trimEnd (c :: s)) as [|d r].
  - cbn [List.app] in E. subst w. cbn in Hw. now rewrite Hc in Hw.
  - injection E as -> _. now exists r.
Qed.

(** X4.  A line feed directly before the opening fence defeats the
    cleaning: the regex takes the line feed and the three backticks for a
    closing fence, the tag [json] stays, and [parseJson] falls back to the
    empty array whatever follows. *)
Theorem parseJson_newline_before_fence : forall rest,
  parseJson (LF :: fence_open ++ rest)
  = (Return (JArray []),
     [Service.console_error (js "Failed to parse JSON response:")
        SyntaxError]).
Proof.
  intros rest. apply parseJson_caught. unfold replace_fences.
  change (LF :: fence_open ++ rest)
    with (fence_close ++ (106%N :: (js "son" ++ LF :: rest))).
  rewrite replace_go_close.
  rewrite replace_go_keep; [|reflexivity|reflexivity].
  destruct (trim_keeps_head 106%N
              (replace_go 0 (js "son" ++ LF :: rest)) eq_refl) as [r ->].
  reflexivity.
Qed.

(** X5.  A text without a backtick passes the cleaning unchanged. *)
Theorem replace_fences_no_backtick : forall text,
  no_backtick text = true -> replace_fences text = text.
Proof.
  unfold replace_fences, no_backtick.
  induction text as [|c s IH]; intros H; [reflexivity|].
  cbn [forallb] in H. apply andb_true_iff in H as [Hc Hs].
  apply negb_true_iff in Hc.
  rewrite replace_go_keep; [now rewrite IH| |].
  - change fence_open with [96; 96; 96; 106; 115; 111; 110; 10]%N.
    cbn [startsWith]. now rewrite Hc.
  - change fence_close with [10; 96; 96; 96]%N. cbn [startsWith].
    destruct s as [|d s]; [now rewrite andb_false_r|].
    cbn [forallb] in Hs. apply andb_true_iff in Hs as [Hd _].
    apply negb_true_iff in Hd. rewrite Hd. now rewrite andb_false_r.
Qed.

Lemma replace_fences_no_backtick_witness :
  no_backtick (js "not json") = true
  /\ replace_fences (js "not json") = js "not json".
Proof.
  split; [reflexivity|].
  apply (replace_fences_no_backtick (js "not json")). reflexivity.
Defined.

(** ** The client *)

Import Outcome.

Lemma parseJson_requests : forall text, requests (snd (parseJson text)) = 0%nat.
Proof.
  intros text.
  destruct (parseJson_total text) as [(v & _ & ->) | (e & _ & ->)];
    reflexivity.
Qed.

Lemma parseJson_value : forall text, exists v, fst (parseJson text) = Return v.
Proof. exact parseJson_returns. Qed.

(** X6.  One invocation of [transcribeAudio] calls the SDK once when there
    is a credential, whatever the outcome, and not at all without one:
    nothing is retried. *)
Theorem transcribeAudio_request_count : forall env svc base64Audio mimeType,
  requests (snd (transcribeAudio env svc base64Audio mimeType))
  = match truthy_string (API_KEY env) with
    | Some _ => 1%nat
    | None => 0%nat
    end.
Proof.
  intros env svc b m. unfold transcribeAudio.
  destruct (truthy_string (API_KEY env)) as [key|]; [|reflexivity].
  cbn -[parseJson].
  destruct (svc key (request b m)) as [r|d]; cbn -[parseJson];
    [|reflexivity].
  destruct (truthy_string (response_text r)) as [t|]; cbn -[parseJson];
    [|reflexivity].
  pose proof (parseJson_requests t) as Hq.
  destruct (parseJson t) as [[v|e] evs]; cbn in *; unfold requests in *;
    cbn; rewrite ?app_nil_r, ?filter_app, ?length_app; cbn; lia.
Qed.

(** X7.  A response without text is an explicit failure: after its one
    request [transcribeAudio] throws the no-response error and logs it. *)
Theorem transcribeAudio_no_text :
  forall env svc base64Audio mimeType apiKey r,
  truthy_string (API_KEY env) = Some apiKey ->
  svc apiKey (request base64Audio mimeType) = resolved r ->
  truthy_string (response_text r) = None ->
  transcribeAudio env svc base64Audio mimeType
  = (Throw (Error no_text_message),
     [ generateContent apiKey (request base64Audio mimeType);
       Service.console_error (js "Gemini Transcription Error:")
         (Error no_text_message) ]).
Proof.
  intros env svc b m key r Hk Hr Ht. unfold transcribeAudio.
  rewrite Hk. cbn -[parseJson]. rewrite Hr. cbn -[parseJson].
  now rewrite Ht.
Qed.

Lemma transcribeAudio_no_text_witness :
  let svc : service := fun _ _ => resolved {| response_text := Some [] |} in
  truthy_string (API_KEY Sample.with_key) = Some (js "k")
  /\ svc (js "k") (request None (js "audio/wav"))
     = resolved {| response_text := Some [] |}
  /\ truthy_string (response_text {| response_text := Some [] |}) = None
  /\ transcribeAudio Sample.with_key svc None (js "audio/wav")
     = (Throw (Error no_text_message),
        [ generateContent (js "k") (request None (js "audio/wav"));
          Service.console_error (js "Gemini Transcription Error:")
            (Error no_text_message) ]).
Proof.
  intros svc.
  split; [reflexivity|]. split; [reflexivity|]. split; [reflexivity|].
  apply (transcribeAudio_no_text Sample.with_key svc None (js "audio/wav")
           (js "k") {| response_text := Some [] |});
    reflexivity.
Defined.

(** X8.  [transcribeAudio] returns exactly when the service answered with
    a non-empty text, and then with what [parseJson] makes of that text,
    parseable or not; in every other case it throws. *)
Theorem transcribeAudio_outcome : forall env svc base64Audio mimeType,
  match answered env svc base64Audio mimeType with
  | Some text =>
      fst (transcribeAudio env svc base64Audio mimeType)
        = fst (parseJson text)
      /\ exists v, fst (parseJson text) = Return v
  | None =>
      exists e, fst (transcribeAudio env svc base64Audio mimeType) = Throw e
  end.
Proof.
  intros env svc b m. unfold answered, transcribeAudio.
  destruct (truthy_string (API_KEY env)) as [key|]; [|now eexists].
  cbn -[parseJson].
  destruct (svc key (request b m)) as [r|d]; cbn -[parseJson];
    [|now eexists].
  destruct (truthy_string (response_text r)) as [t|]; cbn -[parseJson];
    [|now eexists].
  split; [|apply parseJson_value].
  now destruct (parseJson t) as [[v|e] evs].
Qed.

(** ** The controller *)

(** X9.  [handleTranscribe] on a held payload never changes the payload or
    the mode.  It ends in ['success'] exactly when the service answered
    with a non-empty text, holding what [parseJson] made of it and no
    message; otherwise it ends in ['error'] with the generic message and
    the result it had. *)
Theorem handleTranscribe_outcome : forall env svc s a,
  audioData s = Some a ->
  let s' := fst (handleTranscribe env svc s) in
  audioData s' = Some a
  /\ mode s' = mode s
  /\ match answered env svc (base64 a) (mimeType a) with
     | Some text =>
         status s' = st_success
         /\ Return (result s') = fst (parseJson text)
         /\ error s' = None
     | None =>
         status s' = st_error
         /\ result s' = result s
         /\ error s' = Some generic_message
     end.
Proof.
  intros env svc s a Ha s'.
  pose proof (transcribeAudio_outcome env svc (base64 a) (mimeType a)) as Ho.
  unfold s', handleTranscribe, handleTranscribe_begin. rewrite Ha.
  destruct (transcribeAudio env svc (base64 a) (mimeType a)) as [o evs].
  destruct (answered env svc (base64 a) (mimeType a)) as [t|].
  - destruct Ho as [Ho (v & Hv)]. cbn [fst] in Ho. rewrite Hv in Ho. subst o.
    cbn -[parseJson]. rewrite Hv. now repeat split.
  - destruct Ho as (e & Ho). cbn [fst] in Ho. subst o. cbn.
    now repeat split.
Qed.

Lemma handleTranscribe_outcome_witness :
  let s := handleAudioReady Sample.clipA initial in
  let s' := fst (handleTranscribe Sample.with_key Sample.answers_example s) in
  audioData s = Some Sample.clipA
  /\ audioData s' = Some Sample.clipA
  /\ mode s' = mode s
  /\ match answered Sample.with_key Sample.answers_example
             (base64 Sample.clipA) (mimeType Sample.clipA) with
     | Some text =>
         status s' = st_success
         /\ Return (result s') = fst (parseJson text)
         /\ error s' = None
     | None =>
         status s' = st_error
         /\ result s' = result s
         /\ error s' = Some generic_message
     end.
Proof.
  intros s s'. split; [reflexivity|].
  apply (handleTranscribe_outcome Sample.with_key Sample.answers_example s
           Sample.clipA).
  reflexivity.
Defined.

(** X10.  A non-empty response text that is not JSON is not reported as an
    error: [handleTranscribe] ends in ['success'] holding the empty array,
    the results section is rendered, and reading [data.segments.map]
    there throws. *)
Theorem malformed_response_reaches_display : forall env svc s a text e,
  audioData s = Some a ->
  answered env svc (base64 a) (mimeType a) = Some text ->
  JSON_parse (trim (replace_fences text)) = Throw e ->
  let s' := fst (handleTranscribe env svc s) in
  status s' = st_success
  /\ result s' = JArray []
  /\ results_section (render s') = true
  /\ TranscriptionDisplay.segments (result s') = Throw TypeError.
Proof.
  intros env svc s a text e Ha Ht He s'.
  destruct (handleTranscribe_outcome env svc s a Ha) as (_ & _ & H).
  fold s' in H. rewrite Ht in H. destruct H as (Hs & Hr & _).
  rewrite (parseJson_caught _ _ He) in Hr. cbn in Hr.
  injection Hr as Hr.
  unfold render, is_status. cbn. rewrite Hs, Hr. now repeat split.
Qed.

Lemma malformed_response_reaches_display_witness :
  let svc : Service.service :=
    fun _ _ =>
      Service.resolved {| Service.response_text := Some (js "not json") |} in
  let s := handleAudioReady Sample.clipA initial in
  let s' := fst (handleTranscribe Sample.with_key svc s) in
  audioData s = Some Sample.clipA
  /\ answered Sample.with_key svc (base64 Sample.clipA)
       (mimeType Sample.clipA) = Some (js "not json")
  /\ JSON_parse (trim (replace_fences (js "not json"))) = Throw SyntaxError
  /\ status s' = st_success
  /\ result s' = JArray []
  /\ results_section (render s') = true
  /\ TranscriptionDisplay.segments (result s') = Throw TypeError.
Proof.
  intros svc s s'.
  split; [reflexivity|]. split; [reflexivity|]. split; [reflexivity|].
  apply (malformed_response_reaches_display Sample.with_key svc s
           Sample.clipA (js "not json") SyntaxError);
    reflexivity.
Defined.

(** ** The session over time *)

Import SessionInv.

Lemma coherent_initial : coherent initial_sys.
Proof. repeat split; [discriminate|now left]. Qed.

Ltac settle_result H2 Et :=
  let Hx := fresh "Hx" in
  intros Hx;
  first [ discriminate Hx
        | exact (H2 eq_refl)
        | exact (H2 Hx)
        | rewrite Et in Hx; discriminate Hx ].

Lemma coherent_step : forall env sys ev,
  coherent sys -> coherent (ui_step env sys ev).
Proof.
  intros env sys ev (H1 & H2 & H3).
  split; [now apply one_call_step|].
  destruct sys as [[md st ad rs er] p l].
  unfold SessionProps.one_call, ui_step, render, is_status in *. cbn in *.
  assert (Hf : st = st_processing -> truthy rs = false).
  { intros ->. destruct (truthy rs); [|reflexivity].
    now specialize (H2 eq_refl). }
  destruct ev as [m| | |data|o].
  - (* a mode tab *)
    destruct st, (truthy rs) eqn:Et; cbn; split; auto;
      settle_result H2 Et.
  - (* Generate Transcript *)
    destruct st, (truthy rs) eqn:Et, ad as [a|]; cbn;
      first
        [ split; [settle_result H2 Et|exact H3]
        | unfold call_handleTranscribe; cbn;
          destruct (Service.transcribeAudio_begin env (base64 a) (mimeType a))
            as [[[k prm]|e] evs]; cbn; rewrite Et;
          (split; [intros Hx; discriminate Hx|now left]) ].
  - (* Start Over *)
    destruct st, (truthy rs) eqn:Et; cbn; split; auto;
      settle_result H2 Et.
  - (* a capture is delivered *)
    cbn. split; [intros Hx; discriminate Hx|now left].
  - (* the awaited call settles *)
    unfold settle. cbn. destruct p as [|c rest]; [now split|].
    destruct st; try discriminate H1.
    specialize (Hf eq_refl).
    destruct c as [e|k prm]; cbn.
    + rewrite Hf. split; [intros Hx; discriminate Hx|now right].
    + destruct (Service.transcribeAudio_resume o) as [[v|e] evs]; cbn.
      * split; [reflexivity|exact H3].
      * rewrite Hf. split; [intros Hx; discriminate Hx|now right].
Qed.

Lemma coherent_run : forall env evs sys,
  coherent sys -> coherent (ui_run env sys evs).
Proof.
  intros env evs. unfold ui_run.
  induction evs as [|ev evs IH]; intros sys H; [exact H|].
  cbn. apply IH. now apply coherent_step.
Qed.


(** X12.  The only message the session ever holds is the generic one, and
    the error banner is rendered only in status ['error'] with that
    message: what the service or the SDK reported is never shown. *)
Theorem only_generic_message : forall env evs,
  let s := app (ui_run env initial_sys evs) in
  (error s = None \/ error s = Some generic_message)
  /\ (error_banner (render s) = true ->
      status s = st_error /\ error s = Some generic_message).
Proof.
  intros env evs s.
  destruct (coherent_run env evs initial_sys coherent_initial)
    as (_ & _ & H3).
  fold s in H3. split; [exact H3|].
  unfold render, is_status. cbn. intros Hb.
  apply andb_true_iff in Hb as [Hs He].
  split; [now destruct (status s)|].
  destruct H3 as [H3 | H3]; rewrite H3 in *; [discriminate He|reflexivity].
Qed.

(** X13.  Whenever a reset control is offered (an enabled mode tab or
    Start Over), no call of [transcribeAudio] is awaited: through the view
    a reset cannot be followed by a late response. *)
Theorem reset_offered_nothing_pending : forall env evs,
  let sys := ui_run env initial_sys evs in
  reset_offered (app sys) = true ->
  pending sys = []
  /\ forall m o,
       app (settle o (ui_step env sys (click_tab m)))
         = app (ui_step env sys (click_tab m))
       /\ app (settle o (ui_step env sys click_start_over))
         = app (ui_step env sys click_start_over).
Proof.
  intros env evs sys Hr.
  destruct (coherent_run env evs initial_sys coherent_initial)
    as (H1 & H2 & _).
  fold sys in H1, H2.
  assert (Hp : pending sys = []).
  { unfold SessionProps.one_call in H1.
    unfold reset_offered, render, is_status in *. cbn in *.
    destruct (status (app sys)); try exact H1.
    rewrite andb_false_r in Hr. cbn in Hr.
    destruct (truthy (result (app sys))); [|discriminate Hr].
    now specialize (H2 eq_refl). }
  split; [exact Hp|]. intros m o.
  unfold ui_step, settle, with_app.
  destruct (mode_tabs (render (app sys))
            && negb (mode_tabs_disabled (render (app sys))))%bool,
    (results_section (render (app sys))); cbn; now rewrite Hp.
Qed.

Lemma reset_offered_nothing_pending_witness :
  let sys := ui_run Sample.with_key initial_sys
               [captured Sample.clipA; click_generate;
                settles (Service.resolved
                           {| Service.response_text :=
                                Some Sample.example_text |})] in
  reset_offered (app sys) = true /\ pending sys = [].
Proof.
  intros sys. split; [reflexivity|].
  apply (reset_offered_nothing_pending Sample.with_key
           [captured Sample.clipA; click_generate;
            settles (Service.resolved
                       {| Service.response_text :=
                            Some Sample.example_text |})]).
  reflexivity.
Defined.


Lemma only_generic_message_witness :
  let s := app (ui_run Sample.with_key initial_sys
                  [captured Sample.clipA; click_generate;
                   settles (Service.rejected (js "fetch failed"))]) in
  error_banner (render s) = true
  /\ status s = st_error /\ error s = Some generic_message.
Proof.
  intros s. split; [reflexivity|].
  apply (proj2 (only_generic_message Sample.with_key
                  [captured Sample.clipA; click_generate;
                   settles (Service.rejected (js "fetch failed"))])).
  reflexivity.
Defined.

(** ** The uploader *)

Import UploaderRun.

Lemma split_go_segment : forall s cur rest,
  no_comma s = true ->
  split_go 44%N cur (s ++ 44%N :: rest)
  = (rev cur ++ s) :: split_go 44%N [] rest.
Proof.
  unfold no_comma.
  induction s as [|c s IH]; intros cur rest H.
  - cbn. now rewrite app_nil_r.
  - cbn [forallb] in H. apply andb_true_iff in H as [Hc Hs].
    apply negb_true_iff in Hc.
    cbn [List.app split_go]. rewrite Hc, IH by exact Hs.
    cbn [rev]. now rewrite <- app_assoc.
Qed.

Lemma split_go_last : forall s cur,
  no_comma s = true -> split_go 44%N cur s = [rev cur ++ s].
Proof.
  unfold no_comma.
  induction s as [|c s IH]; intros cur H.
  - cbn. now rewrite app_nil_r.
  - cbn [forallb] in H. apply andb_true_iff in H as [Hc Hs].
    apply negb_true_iff in Hc.
    cbn [split_go]. rewrite Hc, IH by exact Hs.
    cbn [rev]. now rewrite <- app_assoc.
Qed.

(** X14.  When the read ends, the payload handed to [onFileSelected] has
    the file as blob and the file's type as MIME type, and as base64 the
    part of the data URL after its first comma, up to the next comma if
    there is one. *)
Theorem reader_onloadend_payload : forall file header data more,
  no_comma header = true -> no_comma data = true ->
  FileUploader.reader_onloadend file (header ++ 44%N :: data)
    = [FileUploader.onFileSelected
         {| Types.blob := file; Types.base64 := Some data;
            Types.mimeType := Types.type file |}]
  /\ FileUploader.reader_onloadend file
       (header ++ 44%N :: data ++ 44%N :: more)
    = [FileUploader.onFileSelected
         {| Types.blob := file; Types.base64 := Some data;
            Types.mimeType := Types.type file |}].
Proof.
  intros file header data more Hh Hd.
  unfold FileUploader.reader_onloadend, split. split.
  - rewrite (split_go_segment _ [] _ Hh), (split_go_last _ [] Hd).
    reflexivity.
  - rewrite (split_go_segment _ [] _ Hh), (split_go_segment _ [] _ Hd).
    reflexivity.
Qed.

Lemma reader_onloadend_payload_witness :
  no_comma (js "data:audio/wav;base64") = true
  /\ no_comma (js "Ukk=") = true
  /\ FileUploader.reader_onloadend Sample.wav
       (js "data:audio/wav;base64" ++ 44%N :: js "Ukk=")
     = [FileUploader.onFileSelected Sample.clipA].
Proof.
  split; [reflexivity|]. split; [reflexivity|].
  apply (reader_onloadend_payload Sample.wav (js "data:audio/wav;base64")
           (js "Ukk=") []); reflexivity.
Defined.

(** X15.  A [reader.result] without a comma gives a payload whose base64
    is undefined. *)
Theorem reader_onloadend_no_comma : forall file result,
  no_comma result = true ->
  FileUploader.reader_onloadend file result
  = [FileUploader.onFileSelected
       {| Types.blob := file; Types.base64 := None;
          Types.mimeType := Types.type file |}].
Proof.
  intros file result H. unfold FileUploader.reader_onloadend, split.
  now rewrite (split_go_last _ [] H).
Qed.

Lemma reader_onloadend_no_comma_witness :
  no_comma (js "data:") = true
  /\ FileUploader.reader_onloadend Sample.wav (js "data:")
     = [FileUploader.onFileSelected
          {| Types.blob := Sample.wav; Types.base64 := None;
             Types.mimeType := js "audio/wav" |}].
Proof.
  split; [reflexivity|].
  apply (reader_onloadend_no_comma Sample.wav (js "data:")). reflexivity.
Defined.

(** *** Every payload comes from an accepted file *)

Lemma Forall_remove_nth : forall A (P : A -> Prop) l i,
  Forall P l -> Forall P (remove_nth i l).
Proof.
  intros A P. induction l as [|x l IH]; intros i H; [exact H|].
  inversion H; subst. destruct i; cbn; [assumption|].
  constructor; [assumption|now apply IH].
Qed.

Lemma processFile_effects : forall (file : Types.File) st,
  snd (FileUploader.processFile file st)
    = [FileUploader.alert (js "Please upload a valid audio file.")]
  \/ (accepted (Types.type file) = true
      /\ snd (FileUploader.processFile file st)
         = [FileUploader.readAsDataURL file]).
Proof.
  intros file st. unfold FileUploader.processFile, accepted.
  destruct (startsWith (Types.type file) (js "audio/")),
    (startsWith (Types.type file) (js "video/")); cbn; auto.
Qed.

Lemma reads_accepted_processFile : forall u (file : Types.File) st,
  reads_accepted u ->
  reads_accepted (handled u (FileUploader.processFile file st)).
Proof.
  intros u file st [Hr He]. unfold handled.
  destruct (processFile_effects file st) as [-> | [Ha ->]]; cbn.
  - now split.
  - split; [|exact He]. apply Forall_app. split; [exact Hr|].
    now constructor.
Qed.

Lemma reads_accepted_step : forall u ev,
  reads_accepted u -> reads_accepted (up_step u ev).
Proof.
  intros u ev H. destruct ev as [kind|files|files| |i result]; cbn.
  - exact H.
  - unfold FileUploader.handleDrop. destruct files as [|file files].
    + exact H.
    + now apply reads_accepted_processFile.
  - unfold FileUploader.handleChange. destruct files as [|file files].
    + exact H.
    + now apply reads_accepted_processFile.
  - exact H.
  - destruct (nth_error (reading u) i) as [file|] eqn:E; [|exact H].
    destruct H as [Hr He]. cbn. split.
    + now apply Forall_remove_nth.
    + apply Forall_app. split; [exact He|]. constructor; [|constructor].
      split; [|reflexivity]. cbn.
      apply nth_error_In in E. revert file E. now apply Forall_forall.
Qed.

(** X16.  Whatever is dropped, picked, removed or read, in any order, every
    payload the uploader hands to [onFileSelected] carries a MIME type that
    starts with [audio/] or [video/], the type of the file it holds. *)
Theorem uploader_emits_accepted : forall evs,
  Forall well_formed (emitted (up_run initial_up evs))
  /\ Forall (fun f => accepted (Types.type f) = true)
       (reading (up_run initial_up evs)).
Proof.
  intros evs.
  assert (H : reads_accepted (up_run initial_up evs)).
  { unfold up_run.
    assert (G : forall u, reads_accepted u ->
                          reads_accepted (fold_left up_step evs u)).
    { induction evs as [|ev evs IH]; intros u Hu; [exact Hu|].
      cbn. apply IH. now apply reads_accepted_step. }
    apply G. split; constructor. }
  destruct H as [Hr He]. now split.
Qed.

(** ** No dead end *)





(** X18.  The spinner ends with the awaited call: in status
    ['processing'] exactly one call is awaited, and when it settles,
    however it settles, the status becomes ['success'] or ['error'],
    nothing is awaited any more and the payload is the one held. *)
Theorem processing_ends_on_settlement : forall env evs o,
  let sys := ui_run env initial_sys evs in
  status (app sys) = st_processing ->
  List.length (pending sys) = 1%nat
  /\ let sys' := ui_step env sys (settles o) in
     (status (app sys') = st_success \/ status (app sys') = st_error)
     /\ pending sys' = []
     /\ audioData (app sys') = audioData (app sys).
Proof.
  intros env evs o sys Hs.
  pose proof (one_call_run env evs initial_sys one_call_initial) as H1.
  fold sys in H1. clearbody sys.
  unfold SessionProps.one_call, is_status in H1.
  rewrite Hs in H1. split; [exact H1|].
  cbn. unfold settle.
  destruct (pending sys) as [|c [|c' rest]]; try discriminate H1.
  destruct c as [e|k prm]; cbn; [now auto|].
  destruct (Service.transcribeAudio_resume o) as [[v|e] evs']; cbn; auto.
Qed.

Lemma processing_ends_on_settlement_witness :
  let sys := ui_run Sample.with_key initial_sys
               [captured Sample.clipA; click_generate] in
  let sys' := ui_step Sample.with_key sys
                (settles (Service.rejected (js "fetch failed"))) in
  status (app sys) = st_processing
  /\ List.length (pending sys) = 1%nat
  /\ (status (app sys') = st_success \/ status (app sys') = st_error)
  /\ pending sys' = []
  /\ audioData (app sys') = audioData (app sys).
Proof.
  intros sys sys'. split; [reflexivity|].
  apply (processing_ends_on_settlement Sample.with_key
           [captured Sample.clipA; click_generate]
           (Service.rejected (js "fetch failed"))).
  reflexivity.
Defined.
